(** * Meta Prompt Orchestrator: the template engine, pack registry and composer
    of [src/app/page.tsx], embedded as Rocq functions.

    JavaScript strings are sequences of UTF-16 code units; they are modelled
    as lists of code units so that [trim], the class [\s] and [JSON.stringify]
    see the same characters as the program does. *)

From Stdlib Require Import String Ascii.
From Stdlib Require Import List NArith Arith Bool Lia.
From Stdlib Require DecimalString DecimalNat.
From Equations Require Import Equations.
Import ListNotations.

(** ** Strings *)

Definition char := N.
Definition jsstring := list char.

(** An ASCII literal as a JavaScript string. *)
Definition js (s : string) : jsstring :=
  List.map N_of_ascii (list_ascii_of_string s).

Definition LF : char := 10%N.
Definition lbrace : char := 123%N.
Definition rbrace : char := 125%N.

Definition jsstring_dec : forall a b : jsstring, {a = b} + {a <> b} :=
  list_eq_dec N.eq_dec.

Definition str_eqb (a b : jsstring) : bool :=
  if jsstring_dec a b then true else false.

(** ECMAScript WhiteSpace and LineTerminator code points: the characters
    that [String.prototype.trim] strips and that [\s] matches. *)
Definition is_space (c : char) : bool :=
  ((9 <=? c) && (c <=? 13) || (c =? 32) || (c =? 160) || (c =? 5760)
   || (8192 <=? c) && (c <=? 8202) || (c =? 8232) || (c =? 8233)
   || (c =? 8239) || (c =? 8287) || (c =? 12288) || (c =? 65279))%N.

Fixpoint trimStart (s : jsstring) : jsstring :=
  match s with
  | c :: s' => if is_space c then trimStart s' else s
  | [] => []
  end.

Definition trimEnd (s : jsstring) : jsstring := rev (trimStart (rev s)).

(** [String.prototype.trim]. *)
Definition trim (s : jsstring) : jsstring := trimEnd (trimStart s).

(** [function normaliseKey(rawKey) { return rawKey.trim(); }] *)
Definition normaliseKey (rawKey : jsstring) : jsstring := trim rawKey.

(** ** The placeholder pattern

    [PLACEHOLDER_REGEX = /{{\s*([^{}]+?)\s*}}/g], as a backtracking matcher
    in continuation style: each piece of the pattern takes the continuation
    that matches what follows it, a greedy star tries the longest run first
    and a lazy repetition the shortest. *)

Section Matcher.
Variable R : Type.

(** A literal character. *)
Definition lit (c : char) (k : jsstring -> option R) (s : jsstring) : option R :=
  match s with
  | c' :: s' => if (c' =? c)%N then k s' else None
  | [] => None
  end.

(** Greedy [p*]: consume while possible, give characters back on failure. *)
Fixpoint star_greedy (p : char -> bool) (k : jsstring -> option R)
         (s : jsstring) : option R :=
  match s with
  | c :: s' =>
      if p c then
        match star_greedy p k s' with
        | Some r => Some r
        | None => k s
        end
      else k s
  | [] => k []
  end.

(** Lazy [p*?] with the text consumed so far: stop as early as the
    continuation accepts. *)
Fixpoint star_lazy (p : char -> bool) (k : jsstring -> jsstring -> option R)
         (acc s : jsstring) : option R :=
  match k acc s with
  | Some r => Some r
  | None =>
      match s with
      | c :: s' => if p c then star_lazy p k (acc ++ [c]) s' else None
      | [] => None
      end
  end.

(** Lazy capturing [(p+?)]. *)
Definition plus_lazy (p : char -> bool) (k : jsstring -> jsstring -> option R)
           (s : jsstring) : option R :=
  match s with
  | c :: s' => if p c then star_lazy p k [c] s' else None
  | [] => None
  end.
End Matcher.

Arguments lit {R} c k s.
Arguments star_greedy {R} p k s.
Arguments star_lazy {R} p k acc s.
Arguments plus_lazy {R} p k s.

Definition not_brace (c : char) : bool :=
  negb (c =? lbrace)%N && negb (c =? rbrace)%N.

(** The pattern tried at the start of [s]: capture group 1 and the text after
    the match. *)
Definition match_here (s : jsstring) : option (jsstring * jsstring) :=
  lit lbrace (lit lbrace
    (star_greedy is_space
      (plus_lazy not_brace (fun group1 =>
        star_greedy is_space
          (lit rbrace (lit rbrace (fun rest => Some (group1, rest)))))))) s.

(** The leftmost match in [s]: the text before it, capture group 1, and the
    text after it. The text after the match stands for [lastIndex]: the next
    search of a global regular expression starts there. *)
Fixpoint search (s : jsstring) : option (jsstring * jsstring * jsstring) :=
  match match_here s with
  | Some (group1, rest) => Some ([], group1, rest)
  | None =>
      match s with
      | c :: s' =>
          match search s' with
          | Some (before, group1, rest) => Some (c :: before, group1, rest)
          | None => None
          end
      | [] => None
      end
  end.

(** What a successful match consumed; the loops below terminate because a
    match is never empty. *)
Section MatcherSound.
Variable R : Type.

Lemma star_greedy_some (p : char -> bool) (k : jsstring -> option R) s r :
  star_greedy p k s = Some r ->
  exists a b, s = a ++ b /\ forallb p a = true /\ k b = Some r.
Proof.
  induction s as [|c s IH]; simpl; intros H.
  - exists [], []. auto.
  - destruct (p c) eqn:Hp.
    + destruct (star_greedy p k s) as [r'|] eqn:Hs.
      * injection H as <-. destruct (IH eq_refl) as (a & b & -> & Ha & Hk).
        exists (c :: a), b. simpl. rewrite Hp, Ha. auto.
      * exists [], (c :: s). auto.
    + exists [], (c :: s). auto.
Qed.

Lemma star_lazy_some (p : char -> bool) (k : jsstring -> jsstring -> option R) s :
  forall acc r, star_lazy p k acc s = Some r ->
  exists a b, s = a ++ b /\ forallb p a = true /\ k (acc ++ a) b = Some r.
Proof.
  induction s as [|c s IH]; simpl; intros acc r H.
  - destruct (k acc []) eqn:Hk; [|discriminate].
    exists [], []. rewrite (app_nil_r acc). injection H as <-. auto.
  - destruct (k acc (c :: s)) eqn:Hk.
    + exists [], (c :: s). rewrite (app_nil_r acc). injection H as <-. auto.
    + destruct (p c) eqn:Hp; [|discriminate].
      destruct (IH _ _ H) as (a & b & -> & Ha & Hk').
      exists (c :: a), b. simpl. rewrite Hp, Ha.
      rewrite <- app_assoc in Hk'. auto.
Qed.

Lemma plus_lazy_some (p : char -> bool) (k : jsstring -> jsstring -> option R) s r :
  plus_lazy p k s = Some r ->
  exists a b, s = a ++ b /\ a <> [] /\ forallb p a = true /\ k a b = Some r.
Proof.
  destruct s as [|c s]; simpl; [discriminate|].
  destruct (p c) eqn:Hp; [|discriminate]. intros H.
  apply star_lazy_some in H as (a & b & -> & Ha & Hk).
  exists (c :: a), b. simpl. rewrite Hp, Ha. repeat split; auto. discriminate.
Qed.

Lemma lit_some (c : char) (k : jsstring -> option R) s r :
  lit c k s = Some r -> exists b, s = c :: b /\ k b = Some r.
Proof.
  destruct s as [|c' s]; simpl; [discriminate|].
  destruct (N.eqb_spec c' c); [|discriminate]. subst. eauto.
Qed.
End MatcherSound.

Lemma match_here_some s group1 rest :
  match_here s = Some (group1, rest) ->
  exists w1 w2,
    s = [lbrace; lbrace] ++ w1 ++ group1 ++ w2 ++ [rbrace; rbrace] ++ rest
    /\ forallb is_space w1 = true /\ forallb is_space w2 = true
    /\ forallb not_brace group1 = true /\ group1 <> [].
Proof.
  unfold match_here. intros H.
  apply lit_some in H as (s1 & -> & H).
  apply lit_some in H as (s2 & -> & H).
  apply star_greedy_some in H as (w1 & s3 & -> & Hw1 & H).
  apply plus_lazy_some in H as (g & s4 & -> & Hne & Hg & H).
  apply star_greedy_some in H as (w2 & s5 & -> & Hw2 & H).
  apply lit_some in H as (s6 & -> & H).
  apply lit_some in H as (s7 & -> & H).
  injection H as <- <-. exists w1, w2. simpl. auto.
Qed.

Lemma search_some s before group1 rest :
  search s = Some (before, group1, rest) ->
  exists matched, s = before ++ matched ++ rest
    /\ match_here (matched ++ rest) = Some (group1, rest)
    /\ 5 <= length matched.
Proof.
  revert before. induction s as [|c s IH]; intros before H.
  - simpl in H. discriminate.
  - cbn [search] in H. destruct (match_here (c :: s)) as [[g r]|] eqn:Hm.
    + injection H as <- <- <-.
      destruct (match_here_some _ _ _ Hm) as (w1 & w2 & Hs & _ & _ & _ & Hne).
      exists ([lbrace; lbrace] ++ w1 ++ g ++ w2 ++ [rbrace; rbrace]).
      repeat rewrite <- app_assoc. rewrite <- Hs. repeat split; auto.
      destruct g; [congruence|]. repeat (rewrite length_app; simpl). lia.
    + destruct (search s) as [[[b g] r]|] eqn:Hs; [|discriminate].
      injection H as <- <- <-.
      destruct (IH _ eq_refl) as (m & -> & Hm' & Hlen).
      exists m. auto.
Qed.

Lemma search_shorter s before group1 rest :
  search s = Some (before, group1, rest) -> length rest < length s.
Proof.
  intros H. destruct (search_some _ _ _ _ H) as (m & -> & _ & Hlen).
  repeat rewrite length_app. lia.
Qed.

Definition inspect {A : Type} (a : A) : {b : A | a = b} := exist _ a eq_refl.

(** [String.prototype.replace] with the global pattern and a replacer
    function, which the program gives capture group 1 ([rawKey]): the text
    between matches is kept, each match is replaced, and the search goes on
    after the match. *)
Equations? replace (replacer : jsstring -> jsstring) (s : jsstring) : jsstring
  by wf (length s) lt :=
  replace replacer s with inspect (search s) := {
    | exist _ (Some (before, group1, rest)) _ =>
        before ++ replacer group1 ++ replace replacer rest;
    | exist _ None _ => s }.
Proof. eapply search_shorter; eauto. Qed.

(** A JavaScript [Set] of strings keeps insertion order; [add] of a member
    changes nothing. *)
Definition Set_has (x : jsstring) (keys : list jsstring) : bool :=
  existsb (str_eqb x) keys.

Definition Set_add (x : jsstring) (keys : list jsstring) : list jsstring :=
  if Set_has x keys then keys else keys ++ [x].

(** The body of the [while ((match = PLACEHOLDER_REGEX.exec(prompt)) !== null)]
    loop of [detectPlaceholders]. *)
Definition detect_step (keys : list jsstring) (group1 : jsstring) : list jsstring :=
  let key := normaliseKey group1 in
  if 0 <? length key then Set_add key keys else keys.

Equations? detect_loop (keys : list jsstring) (s : jsstring) : list jsstring
  by wf (length s) lt :=
  detect_loop keys s with inspect (search s) := {
    | exist _ (Some (_, group1, rest)) _ =>
        detect_loop (detect_step keys group1) rest;
    | exist _ None _ => keys }.
Proof. eapply search_shorter; eauto. Qed.

(** [function detectPlaceholders(prompt)]: [Array.from(keys)] lists the set
    in insertion order. The loop always runs until [exec] fails, which
    resets [lastIndex], and [replace] resets it as well, so every call scans
    from the start of [prompt]. *)
Definition detectPlaceholders (prompt : jsstring) : list jsstring :=
  detect_loop [] prompt.

(** ** Objects used as maps

    [type VariableMap = Record<string, string>]: an ordinary object. Its own
    properties are kept in the order in which JavaScript enumerates them
    (array-index keys in ascending order, then the other keys in creation
    order), which is the order of [{...prev}] and of [JSON.stringify]. *)
Definition VariableMap := list (jsstring * jsstring).

Fixpoint own_get (key : jsstring) (o : VariableMap) : option jsstring :=
  match o with
  | (k, v) :: o' => if str_eqb k key then Some v else own_get key o'
  | [] => None
  end.

Fixpoint own_update (key value : jsstring) (o : VariableMap) : VariableMap :=
  match o with
  | (k, v) :: o' =>
      if str_eqb k key then (k, value) :: o' else (k, v) :: own_update key value o'
  | [] => []
  end.

Definition is_digit (c : char) : bool := ((48 <=? c) && (c <=? 57))%N.

Definition digits_value (s : jsstring) : N :=
  fold_left (fun acc c => acc * 10 + (c - 48))%N s 0%N.

(** An array index is a canonical numeric string below 2^32 - 1. *)
Definition array_index (key : jsstring) : option N :=
  match key with
  | [] => None
  | c :: rest =>
      if forallb is_digit key
         && (negb (c =? 48)%N || match rest with [] => true | _ => false end)
         && (digits_value key <? 4294967295)%N
      then Some (digits_value key) else None
  end.

Fixpoint insert_index (i : N) (key value : jsstring) (o : VariableMap) : VariableMap :=
  match o with
  | (k, v) :: o' =>
      match array_index k with
      | Some j => if (j <? i)%N then (k, v) :: insert_index i key value o'
                  else (key, value) :: o
      | None => (key, value) :: o
      end
  | [] => [(key, value)]
  end.

(** [{...prev, [key]: value}]: a copy of [prev] in which [key] holds
    [value]; an existing key keeps its place, a new one is created. *)
Definition obj_set (key value : jsstring) (prev : VariableMap) : VariableMap :=
  match own_get key prev with
  | Some _ => own_update key value prev
  | None =>
      match array_index key with
      | Some i => insert_index i key value prev
      | None => prev ++ [(key, value)]
      end
  end.

(** The outcome of the property read [values[key]]. An object literal
    inherits from [Object.prototype], so a key that is not an own property
    can still resolve, to a built-in member that is not a string. *)
Inductive PropertyValue : Type :=
| OwnString (v : jsstring)
| Builtin (text : jsstring)
| Undefined.

(** The members of [Object.prototype], each with the text [ToString] gives
    for it. The text of a built-in function is host-defined within the
    form [function name() { [native code] }]; V8 prints it as below. *)
Definition native_function (fname : string) : jsstring :=
  js "function " ++ js fname ++ js "() { [native code] }".

Definition Object_prototype : list (jsstring * jsstring) :=
  [ (js "constructor", native_function "Object");
    (js "__defineGetter__", native_function "__defineGetter__");
    (js "__defineSetter__", native_function "__defineSetter__");
    (js "hasOwnProperty", native_function "hasOwnProperty");
    (js "__lookupGetter__", native_function "__lookupGetter__");
    (js "__lookupSetter__", native_function "__lookupSetter__");
    (js "isPrototypeOf", native_function "isPrototypeOf");
    (js "propertyIsEnumerable", native_function "propertyIsEnumerable");
    (js "toString", native_function "toString");
    (js "valueOf", native_function "valueOf");
    (js "__proto__", js "[object Object]");
    (js "toLocaleString", native_function "toLocaleString") ].

Definition Get (values : VariableMap) (key : jsstring) : PropertyValue :=
  match own_get key values with
  | Some v => OwnString v
  | None =>
      match own_get key Object_prototype with
      | Some text => Builtin text
      | None => Undefined
      end
  end.

(** ** The substitution engine *)

(** The template literal [`{{${key}}}`]. *)
Definition marker (key : jsstring) : jsstring :=
  [lbrace; lbrace] ++ key ++ [rbrace; rbrace].

(** The replacer of [injectVariables]. [replace] turns what the replacer
    returns into a string, which matters only for a built-in member. *)
Definition replacer (values : VariableMap) (rawKey : jsstring) : jsstring :=
  let key := normaliseKey rawKey in
  match Get values key with
  | OwnString value =>
      if negb (str_eqb value []) then value else marker key
  | Builtin text => text
  | Undefined => marker key
  end.

(** [function injectVariables(template, values)] *)
Definition injectVariables (template : jsstring) (values : VariableMap) : jsstring :=
  replace (replacer values) template.

(** ** Pack records *)

Record PackPrompt : Type := mkPack {
  id : jsstring;
  name : jsstring;
  packName : jsstring;
  goal : jsstring;
  perImage : jsstring;
  systemNotes : jsstring
}.

(** [keyof PackPrompt] *)
Inductive PackKey : Type :=
| key_id | key_name | key_packName | key_goal | key_perImage | key_systemNotes.

Definition get_field (field : PackKey) (pack : PackPrompt) : jsstring :=
  match field with
  | key_id => id pack
  | key_name => name pack
  | key_packName => packName pack
  | key_goal => goal pack
  | key_perImage => perImage pack
  | key_systemNotes => systemNotes pack
  end.

(** [{...pack, [field]: value}] *)
Definition set_field (field : PackKey) (value : jsstring) (pack : PackPrompt)
  : PackPrompt :=
  match field with
  | key_id => mkPack value (name pack) (packName pack) (goal pack) (perImage pack) (systemNotes pack)
  | key_name => mkPack (id pack) value (packName pack) (goal pack) (perImage pack) (systemNotes pack)
  | key_packName => mkPack (id pack) (name pack) value (goal pack) (perImage pack) (systemNotes pack)
  | key_goal => mkPack (id pack) (name pack) (packName pack) value (perImage pack) (systemNotes pack)
  | key_perImage => mkPack (id pack) (name pack) (packName pack) (goal pack) value (systemNotes pack)
  | key_systemNotes => mkPack (id pack) (name pack) (packName pack) (goal pack) (perImage pack) value
  end.

Definition PackKey_eqb (a b : PackKey) : bool :=
  match a, b with
  | key_id, key_id | key_name, key_name | key_packName, key_packName
  | key_goal, key_goal | key_perImage, key_perImage
  | key_systemNotes, key_systemNotes => true
  | _, _ => false
  end.

(** [String.prototype.split("\n")]: always at least one piece. *)
Fixpoint split_lines (s : jsstring) : list jsstring :=
  match s with
  | [] => [[]]
  | c :: s' =>
      if (c =? LF)%N then [] :: split_lines s'
      else match split_lines s' with
           | line :: lines => (c :: line) :: lines
           | [] => [[c]]
           end
  end.

(** [Array.prototype.join(sep)] on an array of strings. *)
Fixpoint join (sep : jsstring) (parts : list jsstring) : jsstring :=
  match parts with
  | [] => []
  | [x] => x
  | x :: parts' => x ++ sep ++ join sep parts'
  end.

(** [function packToMarkdown(pack)] *)
Definition packToMarkdown (pack : PackPrompt) : jsstring :=
  join [LF]
    [ js "Pack Name: " ++ packName pack;
      js "Objective: " ++ goal pack;
      [];
      js "Per Image Directives:";
      join [LF] (List.map (fun line => js "- " ++ line) (split_lines (perImage pack)));
      [];
      js "System Notes: " ++ systemNotes pack ].

(** ** Seed data *)

Definition dq : jsstring := [34%N].

Definition DEFAULT_META_PROMPT : jsstring :=
  join [LF]
    [ js "You are " ++ dq ++ js "Synthetic-Factory" ++ dq
        ++ js ", a zero-GPU, CPU-only background service.";
      js "Your sole task: produce exactly {{count}} labelled synthetic images for {{pack_name}}.";
      js "Constraints:";
      js "- Never use real personal data.";
      js "- Output folder: {{output_path}}";
      js "- Label format: COCO-JSON + plain txt sidecar.";
      js "- Max resolution: 2K; file size < 300 KB.";
      js "- Randomisation seed = {{user_id}} * 997.";
      js "- Finish in < {{timeout}} seconds (CPU laptop level).";
      js "- Zip results and place a DONE.txt with MD5 hashes.";
      js "- Return only a JSON summary: {" ++ dq ++ js "status" ++ dq ++ js ":"
        ++ dq ++ js "done" ++ dq ++ js "," ++ dq ++ js "zip_size_MB" ++ dq
        ++ js ":x," ++ dq ++ js "file_count" ++ dq ++ js ":y," ++ dq ++ js "md5"
        ++ dq ++ js ":" ++ dq ++ js "z" ++ dq ++ js "}";
      [];
      js "PACK-SPECIFIC ALT-PROMPTS (use when pack matches)" ].

Definition DEFAULT_PACKS : list PackPrompt :=
  [ {| id := js "tr_invoice";
       name := js "Turkish Invoice Pack";
       packName := js "TR_INVOICE";
       goal := js "Synthetic finance documents mimicking Turkish invoices with anonymised merchant and buyer data.";
       perImage := join [LF]
         [ js "header=" ++ dq ++ js "FATURA" ++ dq ++ js " aligned to the top center";
           js "fields: vergi_no, fatura_no, tarih (DD.MM.YYYY), saat, kasa_id";
           js "table rows with " ++ [252%N] ++ js "r" ++ [252%N] ++ js "n_ad"
             ++ [305%N] ++ js ", adet, birim_fiyat, toplam";
           js "QR code placeholder bottom right with caption 'E-Ar" ++ [351%N] ++ js "iv'";
           js "stamp 'D" ++ [304%N] ++ js "J" ++ [304%N]
             ++ js "TAL KOPYA' diagonally semi-transparent" ];
       systemNotes := js "Ensure totals are arithmetically consistent. Rotate 15% of samples by "
         ++ [177%N] ++ js "5" ++ [176%N] ++ js " for scanner realism." |};
    {| id := js "us_id";
       name := js "US ID Cards";
       packName := js "US_ID_V1";
       goal := js "Generate anonymised US-style identification cards with varied backgrounds and lighting.";
       perImage := join [LF]
         [ js "front-and-back layout split horizontally";
           js "fields: name, dob, issue_date, expiry_date, doc_number";
           js "random portrait photo placeholder with coloured silhouette";
           js "magnetic stripe or barcode on back with gibberish data" ];
       systemNotes := js "Use lorem ipsum for text values. Render hologram overlays with subtle transparency." |};
    {| id := js "parking_tickets";
       name := js "Parking Ticket Notices";
       packName := js "PARKING_NOTICE_EU";
       goal := js "Urban municipality parking violation notices in EU languages with unique ticket numbers.";
       perImage := join [LF]
         [ js "municipality header with crest placeholder";
           js "sections: offence_details, location, timestamp, fine_amount";
           js "footer with payment instructions and IBAN style account numbers";
           js "paper texture background with folds or creases" ];
       systemNotes := js "Alternate languages (DE, FR, NL, IT). 20% should include overdue surcharge line item." |} ].

Definition DEFAULT_VARIABLES : VariableMap :=
  [ (js "count", js "24");
    (js "pack_name", js "TR_INVOICE");
    (js "output_path", js "/tmp/synthetic_factory/output");
    (js "user_id", js "142857");
    (js "timeout", js "45") ].

(** ** The component state

    The four [useState] cells of [Home] that the engine reads and writes
    (the fifth, [copied], is the transient clipboard label). A handler is a
    function from the state of the render it was created in to the state of
    the next render. *)
Record State : Type := mkState {
  metaPrompt : jsstring;
  variables : VariableMap;
  packs : list PackPrompt;
  selectedPackId : jsstring
}.

(** [DEFAULT_PACKS[0]?.id ?? ""] *)
Definition initial_state : State :=
  {| metaPrompt := DEFAULT_META_PROMPT;
     variables := DEFAULT_VARIABLES;
     packs := DEFAULT_PACKS;
     selectedPackId := match DEFAULT_PACKS with p :: _ => id p | [] => [] end |}.

Definition detectedVariables (st : State) : list jsstring :=
  detectPlaceholders (metaPrompt st).

(** [packs.find((pack) => pack.id === selectedPackId) ?? packs[0]];
    [None] stands for [undefined]. *)
Definition selectedPack (st : State) : option PackPrompt :=
  match find (fun pack => str_eqb (id pack) (selectedPackId st)) (packs st) with
  | Some pack => Some pack
  | None => hd_error (packs st)
  end.

Definition finalPrompt (st : State) : jsstring :=
  injectVariables (metaPrompt st) (variables st).

Definition divider : jsstring := [LF; LF] ++ js "---" ++ [LF; LF].

(** The function memoised as [combinedPrompt], of its two dependencies. *)
Definition combine (finalPrompt : jsstring) (selectedPack : option PackPrompt)
  : jsstring :=
  match selectedPack with
  | None => finalPrompt
  | Some pack => finalPrompt ++ divider ++ packToMarkdown pack
  end.

Definition combinedPrompt (st : State) : jsstring :=
  combine (finalPrompt st) (selectedPack st).

Definition setMetaPrompt (text : jsstring) (st : State) : State :=
  mkState text (variables st) (packs st) (selectedPackId st).

Definition handleVariableChange (key value : jsstring) (st : State) : State :=
  mkState (metaPrompt st) (obj_set key value (variables st)) (packs st)
          (selectedPackId st).

Definition handlePackFieldChange (field : PackKey) (value : jsstring) (st : State)
  : State :=
  let st1 :=
    mkState (metaPrompt st) (variables st)
      (List.map (fun pack =>
                   if str_eqb (id pack) (selectedPackId st)
                   then set_field field value pack
                   else pack) (packs st))
      (selectedPackId st) in
  if PackKey_eqb field key_packName
  then handleVariableChange (js "pack_name") value st1
  else st1.

Definition handleSelectPack (packId : jsstring) (st : State) : State :=
  let st1 := mkState (metaPrompt st) (variables st) (packs st) packId in
  match find (fun item => str_eqb (id item) packId) (packs st) with
  | Some pack => handleVariableChange (js "pack_name") (packName pack) st1
  | None => st1
  end.

(** A number in a template literal: its decimal digits. *)
Definition number_to_string (n : nat) : jsstring :=
  js (DecimalString.NilEmpty.string_of_uint (Nat.to_uint n)).

Definition newPack (nextIndex : nat) : PackPrompt :=
  {| id := js "pack_" ++ number_to_string nextIndex;
     name := js "New Pack " ++ number_to_string nextIndex;
     packName := js "PACK_" ++ number_to_string nextIndex;
     goal := js "Describe the objective for this synthetic data pack.";
     perImage := js "List per-image directives, each on its own line.";
     systemNotes := js "Add advanced notes such as balancing rules or post-processing." |}.

Definition addNewPack (st : State) : State :=
  let nextIndex := length (packs st) + 1 in
  let newPack := newPack nextIndex in
  handleVariableChange (js "pack_name") (packName newPack)
    (mkState (metaPrompt st) (variables st) (packs st ++ [newPack]) (id newPack)).

(** The [onClick] of the Apply button, shown while there is an active pack:
    [handleVariableChange("pack_name", selectedPack.packName || variables.pack_name)].
    The store has an own [pack_name] from the start and no handler removes
    an entry, so the right operand of [||] is a string. *)
Definition applyPackName (st : State) : State :=
  match selectedPack st with
  | Some pack =>
      let value :=
        if negb (str_eqb (packName pack) []) then packName pack
        else match own_get (js "pack_name") (variables st) with
             | Some v => v
             | None => []
             end in
      handleVariableChange (js "pack_name") value st
  | None => st
  end.

(** What the page lets the operator do: type in the template box, type in
    the field of a variable, click a pack card, type in a field of the
    active pack's form, press Apply, press the new-pack button. *)
Inductive Event : Type :=
| TypeMetaPrompt (text : jsstring)
| TypeVariable (variable value : jsstring)
| ClickPack (packId : jsstring)
| TypePackField (field : PackKey) (value : jsstring)
| ClickApply
| ClickNewPack.

Definition step (st : State) (ev : Event) : State :=
  match ev with
  | TypeMetaPrompt text => setMetaPrompt text st
  | TypeVariable variable value => handleVariableChange variable value st
  | ClickPack packId => handleSelectPack packId st
  | TypePackField field value => handlePackFieldChange field value st
  | ClickApply => applyPackName st
  | ClickNewPack => addNewPack st
  end.

(** The page has a form input for every field of a pack but its [id]. *)
Definition wired (ev : Event) : bool :=
  match ev with
  | TypePackField key_id _ => false
  | _ => true
  end.

Definition run (events : list Event) : State := fold_left step events initial_state.

(** [const isActive = pack.id === selectedPackId]: the pack card drawn as
    selected. *)
Definition isActive (st : State) (pack : PackPrompt) : bool :=
  str_eqb (id pack) (selectedPackId st).

Definition activeCards (st : State) : list PackPrompt :=
  List.filter (isActive st) (packs st).

(** The controls the page renders in a state: the template box and the
    new-pack button always; one input per detected variable; one card per
    pack, which selects that pack's id; and, while there is an active pack,
    the form for its fields other than [id] and the Apply button. *)
Definition offered (st : State) (ev : Event) : bool :=
  match ev with
  | TypeMetaPrompt _ => true
  | TypeVariable variable _ => Set_has variable (detectedVariables st)
  | ClickPack packId => existsb (fun pack => str_eqb (id pack) packId) (packs st)
  | TypePackField field _ =>
      negb (PackKey_eqb field key_id)
      && match selectedPack st with Some _ => true | None => false end
  | ClickApply => match selectedPack st with Some _ => true | None => false end
  | ClickNewPack => true
  end.

(** A sequence of events in which each one is offered by the page in the
    state the earlier ones lead to. *)
Fixpoint playable (st : State) (events : list Event) : bool :=
  match events with
  | [] => true
  | ev :: events' => offered st ev && playable (step st ev) events'
  end.

(** ** The JSON snapshot *)

(** The values the snapshot is built from. An object lists its members in
    property order. *)
#[warnings="-register-all"]
Inductive JSON : Type :=
| JNull
| JString (s : jsstring)
| JArray (items : list JSON)
| JObject (members : list (jsstring * JSON)).

Definition hex_digit (d : N) : char :=
  (if d <? 10 then 48 + d else 87 + d)%N.

(** [\uXXXX] with lower-case hexadecimal digits. *)
Definition unicode_escape (c : char) : jsstring :=
  [92%N; 117%N; hex_digit (c / 4096 mod 16); hex_digit (c / 256 mod 16);
   hex_digit (c / 16 mod 16); hex_digit (c mod 16)].

Definition is_high_surrogate (c : char) : bool := ((55296 <=? c) && (c <=? 56319))%N.
Definition is_low_surrogate (c : char) : bool := ((56320 <=? c) && (c <=? 57343))%N.

(** One code unit that is not the first half of a surrogate pair. *)
Definition quote_unit (c : char) : jsstring :=
  if (c =? 8)%N then [92%N; 98%N]
  else if (c =? 9)%N then [92%N; 116%N]
  else if (c =? 10)%N then [92%N; 110%N]
  else if (c =? 12)%N then [92%N; 102%N]
  else if (c =? 13)%N then [92%N; 114%N]
  else if (c =? 34)%N then [92%N; 34%N]
  else if (c =? 92)%N then [92%N; 92%N]
  else if (c <? 32)%N || is_high_surrogate c || is_low_surrogate c
       then unicode_escape c
  else [c].

Fixpoint quote_body (s : jsstring) : jsstring :=
  match s with
  | [] => []
  | c :: s' =>
      if is_high_surrogate c then
        match s' with
        | d :: s'' =>
            if is_low_surrogate d then c :: d :: quote_body s''
            else unicode_escape c ++ quote_body s'
        | [] => unicode_escape c
        end
      else quote_unit c ++ quote_body s'
  end.

(** QuoteJSONString of the language specification. *)
Definition QuoteJSONString (s : jsstring) : jsstring := dq ++ quote_body s ++ dq.

(** SerializeJSONProperty of the language specification, for a value
    tree, a [gap] and the current indentation. With an empty [gap] the
    text has no line breaks and no space after the colon. *)
Fixpoint SerializeJSON (gap indent : jsstring) (v : JSON) : jsstring :=
  match v with
  | JNull => js "null"
  | JString s => QuoteJSONString s
  | JArray items =>
      match items with
      | [] => js "[]"
      | _ =>
          let stepback := indent in
          let indent := indent ++ gap in
          let partial := List.map (SerializeJSON gap indent) items in
          match gap with
          | [] => js "[" ++ join (js ",") partial ++ js "]"
          | _ => js "[" ++ [LF] ++ indent
                   ++ join (js "," ++ [LF] ++ indent) partial
                   ++ [LF] ++ stepback ++ js "]"
          end
      end
  | JObject members =>
      match members with
      | [] => js "{}"
      | _ =>
          let stepback := indent in
          let indent := indent ++ gap in
          let partial :=
            List.map (fun m => QuoteJSONString (fst m) ++ js ":"
                                 ++ match gap with [] => [] | _ => js " " end
                                 ++ SerializeJSON gap indent (snd m))
                     members in
          match gap with
          | [] => js "{" ++ join (js ",") partial ++ js "}"
          | _ => js "{" ++ [LF] ++ indent
                   ++ join (js "," ++ [LF] ++ indent) partial
                   ++ [LF] ++ stepback ++ js "}"
          end
      end
  end.

(** [JSON.stringify(value, null, space)] for a number [space]: the gap is
    that many spaces, at most ten. *)
Definition JSON_stringify (v : JSON) (space : nat) : jsstring :=
  SerializeJSON (repeat 32%N (Nat.min space 10)) [] v.

(** The object literal handed to [JSON.stringify] by the snapshot button. *)
Definition snapshot_pack (pack : PackPrompt) : JSON :=
  JObject
    [ (js "packName", JString (packName pack));
      (js "goal", JString (goal pack));
      (js "perImage",
        JArray (List.map (fun line => JString (trim line)) (split_lines (perImage pack))));
      (js "systemNotes", JString (systemNotes pack)) ].

Definition snapshot_variables (values : VariableMap) : JSON :=
  JObject (List.map (fun kv => (fst kv, JString (snd kv))) values).

Definition snapshot_object (st : State) : JSON :=
  JObject
    [ (js "metaPrompt", JString (finalPrompt st));
      (js "selectedPack",
        match selectedPack st with
        | Some pack => snapshot_pack pack
        | None => JNull
        end);
      (js "variables", snapshot_variables (variables st)) ].

Definition snapshot (st : State) : jsstring :=
  JSON_stringify (snapshot_object st) 2.

(** ** Auxiliary notions for the statements *)

(** Capture group 1 of every successive match, as [matchAll] would list
    them. *)
Equations? matches (s : jsstring) : list jsstring by wf (length s) lt :=
  matches s with inspect (search s) := {
    | exist _ (Some (_, group1, rest)) _ => group1 :: matches rest;
    | exist _ None _ => [] }.
Proof. eapply search_shorter; eauto. Qed.

(** [String.prototype.includes] *)
Fixpoint starts_with (part s : jsstring) : bool :=
  match part, s with
  | [], _ => true
  | c :: part', d :: s' => (c =? d)%N && starts_with part' s'
  | _ :: _, [] => false
  end.

Fixpoint includes (part s : jsstring) : bool :=
  starts_with part s || match s with [] => false | _ :: s' => includes part s' end.

(** Names in order of first occurrence: empty names dropped, and every
    later repetition of a name dropped. *)
Fixpoint first_occurrences (names : list jsstring) : list jsstring :=
  match names with
  | [] => []
  | x :: names' =>
      let later := List.filter (fun y => negb (str_eqb y x)) (first_occurrences names') in
      if 0 <? length x then x :: later else later
  end.

(** A name has a usable value: an own entry that is not the empty string. *)
Definition resolved (values : VariableMap) (key : jsstring) : bool :=
  match own_get key values with
  | Some v => negb (str_eqb v [])
  | None => false
  end.

Definition starts_clean (s : jsstring) : Prop :=
  match s with c :: _ => is_space c = false | [] => True end.

(** ** Inputs of the scenarios and counterexamples *)


(** The pack of the specification's scenario. *)
Definition scenario_pack : PackPrompt :=
  {| id := js "us_id"; name := js "US ID Cards"; packName := js "US_ID_V1";
     goal := js "G"; perImage := js "a" ++ [LF] ++ js "b"; systemNotes := js "N" |}.

(** The state after the second seed pack was clicked. *)
Definition us_id_selected : State := run [ClickPack (js "us_id")].

(** Every opening brace is directly followed by another brace: a text in
    which the pattern cannot match, however it is extended. *)
Fixpoint braces_closed (s : jsstring) : bool :=
  match s with
  | [] => true
  | c :: s' =>
      (if (c =? lbrace)%N
       then match s' with d :: _ => negb (not_brace d) | [] => false end
       else true)
      && braces_closed s'
  end.

(** The text of a template outside its markers. *)
Definition outside_markers (template : jsstring) : jsstring :=
  replace (fun _ => []) template.

(** Reading a quoted string body back: the inverse of the escapes that
    [QuoteJSONString] writes. *)
Definition hex_value (c : char) : N := (if c <? 58 then c - 48 else c - 87)%N.

Definition unescape (e : char) : char :=
  if (e =? 98)%N then 8%N
  else if (e =? 116)%N then 9%N
  else if (e =? 110)%N then 10%N
  else if (e =? 102)%N then 12%N
  else if (e =? 114)%N then 13%N
  else e.

Fixpoint unquote_body (s : jsstring) : option jsstring :=
  match s with
  | [] => Some []
  | c :: rest =>
      if (c =? 92)%N then
        match rest with
        | e :: rest' =>
            if (e =? 117)%N then
              match rest' with
              | h1 :: h2 :: h3 :: h4 :: rest'' =>
                  option_map
                    (cons (hex_value h1 * 4096 + hex_value h2 * 256
                           + hex_value h3 * 16 + hex_value h4)%N)
                    (unquote_body rest'')
              | _ => None
              end
            else option_map (cons (unescape e)) (unquote_body rest')
        | [] => None
        end
      else option_map (cons c) (unquote_body rest)
  end.

(** ** Identifiers in a session *)

Definition ids (st : State) : list jsstring := List.map id (packs st).

(** The ids handed out by [addNewPack] after the three seed packs. *)
Definition issued (n : nat) : list jsstring :=
  List.map (fun k => id (newPack k)) (seq 4 n).

(** * Properties *)

(** ** String equality *)

Lemma str_eqb_eq a b : str_eqb a b = true <-> a = b.
Proof. unfold str_eqb. destruct (jsstring_dec a b); split; congruence. Qed.

Lemma str_eqb_neq a b : str_eqb a b = false <-> a <> b.
Proof. unfold str_eqb. destruct (jsstring_dec a b); split; congruence. Qed.

Lemma str_eqb_refl a : str_eqb a a = true.
Proof. now apply str_eqb_eq. Qed.


(** ** Unfolding the loops *)

Lemma replace_eq f s :
  replace f s =
  match search s with
  | Some (before, group1, rest) => before ++ f group1 ++ replace f rest
  | None => s
  end.
Proof.
  funelim (replace f s); match goal with e : search _ = _ |- _ => rewrite e end;
    reflexivity.
Qed.

Lemma detect_loop_eq keys s :
  detect_loop keys s =
  match search s with
  | Some (_, group1, rest) => detect_loop (detect_step keys group1) rest
  | None => keys
  end.
Proof.
  funelim (detect_loop keys s); match goal with e : search _ = _ |- _ => rewrite e end;
    reflexivity.
Qed.

Lemma matches_eq s :
  matches s =
  match search s with
  | Some (_, group1, rest) => group1 :: matches rest
  | None => []
  end.
Proof.
  funelim (matches s); match goal with e : search _ = _ |- _ => rewrite e end;
    reflexivity.
Qed.

(** Induction on a string along the successive matches of the pattern. *)
Lemma match_induction (P : jsstring -> Prop) :
  (forall s, search s = None -> P s) ->
  (forall s before group1 rest,
      search s = Some (before, group1, rest) -> P rest -> P s) ->
  forall s, P s.
Proof.
  intros Hnone Hsome s.
  induction s as [s IH] using (induction_ltof1 _ (@length char)).
  destruct (search s) as [[[b g] r]|] eqn:Hs.
  - eapply Hsome; eauto. apply IH. unfold ltof. eapply search_shorter; eauto.
  - auto.
Qed.

(** The loop of [detectPlaceholders] folds its body over the matches. *)
Lemma detect_loop_fold s :
  forall keys, detect_loop keys s = fold_left detect_step (matches s) keys.
Proof.
  induction s as [s Hs | s b g r Hs IH] using match_induction; intros keys;
    rewrite detect_loop_eq, matches_eq, Hs; simpl; auto.
Qed.

(** ** Trimming *)

Lemma trimStart_clean s : starts_clean (trimStart s).
Proof.
  induction s as [|c s IH]; simpl; auto.
  destruct (is_space c) eqn:Hc; simpl; auto.
Qed.

Lemma trimStart_fix s : starts_clean s -> trimStart s = s.
Proof. destruct s as [|c s]; simpl; auto. intros ->. reflexivity. Qed.

Lemma trimStart_suffix s : exists w, s = w ++ trimStart s.
Proof.
  induction s as [|c s [w IH]]; simpl.
  - exists []. reflexivity.
  - destruct (is_space c).
    + exists (c :: w). simpl. congruence.
    + exists []. reflexivity.
Qed.

Lemma trimStart_idem s : trimStart (trimStart s) = trimStart s.
Proof. apply trimStart_fix, trimStart_clean. Qed.

Lemma trim_starts_clean s : starts_clean (trim s).
Proof.
  unfold trim, trimEnd.
  pose proof (trimStart_clean s) as Hclean.
  destruct (trimStart_suffix (rev (trimStart s))) as [w Hw].
  apply (f_equal (@rev char)) in Hw. rewrite rev_involutive, rev_app_distr in Hw.
  destruct (rev (trimStart (rev (trimStart s)))) as [|c u]; simpl; auto.
  rewrite Hw in Hclean. exact Hclean.
Qed.

Lemma trim_idem s : trim (trim s) = trim s.
Proof.
  unfold trim at 1. rewrite (trimStart_fix _ (trim_starts_clean s)).
  unfold trim, trimEnd. rewrite rev_involutive, trimStart_idem. reflexivity.
Qed.

Lemma trimStart_spaces w x :
  forallb is_space w = true -> trimStart (w ++ x) = trimStart x.
Proof.
  induction w as [|c w IH]; simpl; auto.
  intros H. apply andb_true_iff in H as [-> H]. auto.
Qed.

Lemma trimStart_app g w :
  trimStart g <> [] -> trimStart (g ++ w) = trimStart g ++ w.
Proof.
  induction g as [|c g IH]; simpl; [congruence|].
  destruct (is_space c); auto.
Qed.

Lemma trimEnd_spaces x w :
  forallb is_space w = true -> trimEnd (x ++ w) = trimEnd x.
Proof.
  intros H. unfold trimEnd. rewrite rev_app_distr, trimStart_spaces; auto.
  rewrite forallb_forall in *. intros c Hc. apply H. now apply in_rev.
Qed.

(** Whitespace around a text does not change what [trim] returns. *)
Lemma trim_padding w1 g w2 :
  forallb is_space w1 = true -> forallb is_space w2 = true ->
  trim (w1 ++ g ++ w2) = trim g.
Proof.
  intros H1 H2. unfold trim. rewrite trimStart_spaces by assumption.
  destruct (trimStart g) as [|c t] eqn:Hg.
  - assert (Hall : forallb is_space (g ++ w2) = true).
    { rewrite forallb_app, H2, andb_true_r.
      clear - Hg. induction g as [|c g IH]; simpl in *; auto.
      destruct (is_space c); [auto | discriminate]. }
    rewrite <- (app_nil_r (g ++ w2)), trimStart_spaces by assumption.
    reflexivity.
  - rewrite trimStart_app by congruence. rewrite Hg. now apply trimEnd_spaces.
Qed.

(** ** The pattern

    The matcher agrees with the reading of the pattern as a set of strings:
    it succeeds exactly on two opening braces, a non-empty text without
    braces and two closing braces, and the normalised key is that text
    trimmed. *)

Section MatcherComplete.
Variable R : Type.

Lemma star_greedy_complete (p : char -> bool) (k : jsstring -> option R) a :
  forall b, forallb p a = true -> k b <> None -> star_greedy p k (a ++ b) <> None.
Proof.
  induction a as [|c a IH]; simpl; intros b Ha Hk.
  - destruct b as [|c b]; simpl; auto.
    destruct (p c); auto. destruct (star_greedy p k b); [discriminate | auto].
  - apply andb_true_iff in Ha as [-> Ha].
    specialize (IH b Ha Hk). destruct (star_greedy p k (a ++ b)); [discriminate|].
    congruence.
Qed.

Lemma star_lazy_complete (p : char -> bool) (k : jsstring -> jsstring -> option R) a :
  forall acc b, forallb p a = true -> k (acc ++ a) b <> None ->
                star_lazy p k acc (a ++ b) <> None.
Proof.
  induction a as [|c a IH]; intros acc b Ha Hk.
  - rewrite app_nil_r in Hk. simpl.
    destruct b; simpl; destruct (k acc _); try discriminate; congruence.
  - simpl in Ha. apply andb_true_iff in Ha as [Hc Ha].
    cbn [app star_lazy]. destruct (k acc (c :: a ++ b)); [discriminate|].
    rewrite Hc. apply IH; auto. now rewrite <- app_assoc.
Qed.
End MatcherComplete.

Lemma brace_free_prefix_unique a b x y :
  forallb not_brace a = true -> forallb not_brace b = true ->
  a ++ rbrace :: x = b ++ rbrace :: y -> a = b /\ x = y.
Proof.
  revert b. induction a as [|c a IH]; intros [|d b]; simpl; intros Ha Hb H.
  - injection H as ->. auto.
  - injection H as <- _. discriminate.
  - injection H as -> _. discriminate.
  - apply andb_true_iff in Ha as [_ Ha]. apply andb_true_iff in Hb as [_ Hb].
    injection H as -> H. destruct (IH _ Ha Hb H) as [-> ->]. auto.
Qed.

Lemma spaces_not_brace w : forallb is_space w = true -> forallb not_brace w = true.
Proof.
  rewrite !forallb_forall. intros H c Hc. specialize (H c Hc).
  unfold not_brace, lbrace, rbrace.
  destruct (N.eqb_spec c 123) as [->|_]; [discriminate|].
  destruct (N.eqb_spec c 125) as [->|_]; [discriminate|]. reflexivity.
Qed.

Lemma match_here_marker inner rest :
  inner <> [] -> forallb not_brace inner = true ->
  exists group1,
    match_here ([lbrace; lbrace] ++ inner ++ [rbrace; rbrace] ++ rest)
    = Some (group1, rest)
    /\ normaliseKey group1 = trim inner.
Proof.
  intros Hne Hinner.
  destruct (match_here ([lbrace; lbrace] ++ inner ++ [rbrace; rbrace] ++ rest))
    as [[g r]|] eqn:Hm.
  - destruct (match_here_some _ _ _ Hm) as (w1 & w2 & Hs & Hw1 & Hw2 & Hg & _).
    simpl in Hs. injection Hs as Hs.
    replace (w1 ++ g ++ w2 ++ rbrace :: rbrace :: r)
      with ((w1 ++ g ++ w2) ++ rbrace :: rbrace :: r) in Hs
      by now rewrite <- !app_assoc.
    apply brace_free_prefix_unique in Hs as [-> Hr]; auto.
    + injection Hr as <-. exists g. split; auto.
      unfold normaliseKey. symmetry. now apply trim_padding.
    + rewrite !forallb_app, Hg, !spaces_not_brace; auto.
  - exfalso. revert Hm. unfold match_here. simpl.
    destruct inner as [|c inner]; [congruence|]. simpl in Hinner.
    apply andb_true_iff in Hinner as [Hc Hinner].
    apply (star_greedy_complete _ _ _ [] (c :: inner ++ rbrace :: rbrace :: rest));
      auto.
    simpl. rewrite Hc.
    apply (star_lazy_complete _ _ _ inner [c] (rbrace :: rbrace :: rest)); auto.
    apply (star_greedy_complete _ _ _ [] (rbrace :: rbrace :: rest)); auto.
    simpl. discriminate.
Qed.

(** What a match at the start of a string looks like. *)
Lemma match_here_shape s group1 rest :
  match_here s = Some (group1, rest) ->
  exists inner,
    s = [lbrace; lbrace] ++ inner ++ [rbrace; rbrace] ++ rest
    /\ inner <> [] /\ forallb not_brace inner = true
    /\ normaliseKey group1 = trim inner.
Proof.
  intros Hm.
  destruct (match_here_some _ _ _ Hm) as (w1 & w2 & Hs & Hw1 & Hw2 & Hg & Hne).
  exists (w1 ++ group1 ++ w2). repeat split.
  - rewrite Hs, <- !app_assoc. reflexivity.
  - destruct w1; simpl; [destruct group1; simpl; congruence | discriminate].
  - rewrite !forallb_app, Hg, !spaces_not_brace; auto.
  - unfold normaliseKey. symmetry. now apply trim_padding.
Qed.

(** ** The scanner *)

Lemma first_occurrences_In names y :
  In y (first_occurrences names) <-> In y names /\ y <> [].
Proof.
  induction names as [|x names IH]; simpl.
  - tauto.
  - assert (Hlater : In y (List.filter (fun y => negb (str_eqb y x))
                             (first_occurrences names))
                     <-> (In y names /\ y <> []) /\ y <> x).
    { rewrite filter_In, IH, negb_true_iff, str_eqb_neq. tauto. }
    destruct (jsstring_dec y x) as [->|Hyx].
    + destruct x as [|c x]; simpl; rewrite ?Hlater.
      * tauto.
      * intuition (auto; discriminate).
    + destruct (0 <? length x); simpl; rewrite Hlater; intuition congruence.
Qed.


Lemma filter_all (A : Type) (p : A -> bool) l :
  (forall x, In x l -> p x = true) -> List.filter p l = l.
Proof.
  induction l as [|a l IH]; simpl; intros H; auto.
  rewrite (H a) by auto. f_equal. auto.
Qed.

Lemma filter_filter (A : Type) (p q : A -> bool) l :
  List.filter p (List.filter q l) = List.filter (fun x => q x && p x) l.
Proof.
  induction l as [|a l IH]; simpl; auto.
  destruct (q a); simpl; [destruct (p a)|]; simpl; congruence.
Qed.

Lemma Set_has_In x keys : Set_has x keys = true <-> In x keys.
Proof.
  unfold Set_has. rewrite existsb_exists. split.
  - intros (y & Hy & Heq). apply str_eqb_eq in Heq. congruence.
  - intros H. exists x. split; auto. apply str_eqb_refl.
Qed.

Lemma Set_has_app x keys y :
  negb (Set_has x (keys ++ [y])) = negb (str_eqb x y) && negb (Set_has x keys).
Proof.
  unfold Set_has. rewrite existsb_app. simpl. rewrite orb_false_r.
  destruct (existsb (str_eqb x) keys), (str_eqb x y); reflexivity.
Qed.

(** Folding the loop body over the raw capture groups is the same as
    taking first occurrences of the normalised names. *)
Lemma fold_detect_step groups :
  forall keys,
    fold_left detect_step groups keys =
    keys ++ List.filter (fun y => negb (Set_has y keys))
              (first_occurrences (List.map normaliseKey groups)).
Proof.
  induction groups as [|g groups IH]; intros keys; simpl.
  - now rewrite app_nil_r.
  - rewrite IH. unfold detect_step. cbv zeta.
    set (x := normaliseKey g).
    set (fo := first_occurrences (List.map normaliseKey groups)).
    destruct (0 <? length x) eqn:Hx.
    + unfold Set_add. simpl. destruct (Set_has x keys) eqn:Hin; simpl.
      * f_equal. rewrite filter_filter. apply filter_ext_in. intros y _.
        destruct (str_eqb y x) eqn:Hyx; simpl; auto.
        apply str_eqb_eq in Hyx. subst y. now rewrite Hin.
      * rewrite <- app_assoc. simpl. do 2 f_equal.
        rewrite filter_filter. apply filter_ext. intros y.
        apply Set_has_app.
    + f_equal. rewrite filter_filter. apply filter_ext_in. intros y Hy.
      unfold fo in Hy. apply first_occurrences_In in Hy as [_ Hy].
      destruct (str_eqb y x) eqn:Hyx; simpl; auto.
      apply str_eqb_eq in Hyx. subst y.
      destruct x; [congruence | discriminate].
Qed.

Lemma detectPlaceholders_first_occurrences prompt :
  detectPlaceholders prompt =
  first_occurrences (List.map normaliseKey (matches prompt)).
Proof.
  unfold detectPlaceholders. rewrite detect_loop_fold, fold_detect_step. simpl.
  apply filter_all. reflexivity.
Qed.

Example detectPlaceholders_malformed :
  detectPlaceholders (js "{{a} {{ b }} {{{c}}} {{}} {{ }} {{b}} {{d")
  = [js "b"; js "c"].
Proof. reflexivity. Qed.

Example detectPlaceholders_default :
  detectPlaceholders DEFAULT_META_PROMPT
  = [js "count"; js "pack_name"; js "output_path"; js "user_id"; js "timeout"].
Proof. reflexivity. Qed.


(** ** The substitution engine *)

Lemma replace_without_match f s : search s = None -> replace f s = s.
Proof. intros H. rewrite replace_eq, H. reflexivity. Qed.

Lemma replace_keeps_replacement f s group1 :
  In group1 (matches s) -> exists a b, replace f s = a ++ f group1 ++ b.
Proof.
  induction s as [s Hs | s before g rest Hs IH] using match_induction;
    rewrite matches_eq, replace_eq, Hs; simpl.
  - tauto.
  - intros [-> | Hin].
    + exists before, (replace f rest). reflexivity.
    + destruct (IH Hin) as (a & b & ->).
      exists (before ++ f g ++ a), b. now rewrite <- !app_assoc.
Qed.

Lemma detectPlaceholders_In prompt key :
  In key (detectPlaceholders prompt) <->
  key <> [] /\ exists group1, In group1 (matches prompt) /\ normaliseKey group1 = key.
Proof.
  rewrite detectPlaceholders_first_occurrences, first_occurrences_In, in_map_iff.
  split.
  - intros [(g & Hg & Hin) Hne]. eauto.
  - intros [Hne (g & Hin & Hg)]. eauto.
Qed.

(** X20: a scanned name with no usable value that is not a member of
    [Object.prototype] comes back as its marker. *)
Lemma unresolved_own_name_keeps_marker template values key :
  In key (detectPlaceholders template) ->
  resolved values key = false ->
  own_get key Object_prototype = None ->
  exists a b, injectVariables template values = a ++ marker key ++ b.
Proof.
  intros Hin Hres Hproto.
  apply detectPlaceholders_In in Hin as (_ & g & Hg & Hkey).
  destruct (replace_keeps_replacement (replacer values) _ _ Hg) as (a & b & Heq).
  exists a, b. unfold injectVariables. rewrite Heq. do 2 f_equal.
  unfold replacer, Get. cbv zeta. rewrite Hkey.
  unfold resolved in Hres.
  destruct (own_get key values) as [v|].
  - now rewrite Hres.
  - now rewrite Hproto.
Qed.


(** Braces around a marker can close up into a new marker even when no
    value contains a brace. *)
Example render_twice_differs_braces :
  let values := [ (js "a", js "x"); (js "x", js "y") ] in
  injectVariables (js "{{{{a}}}}") values = js "{{x}}"
  /\ injectVariables (js "{{x}}") values = js "y".
Proof. split; reflexivity. Qed.

(** The scenarios of the specification. *)
Example render_both_present :
  injectVariables (js "Generate {{count}} images for {{pack_name}}")
    [ (js "count", js "10"); (js "pack_name", js "TR_INVOICE") ]
  = js "Generate 10 images for TR_INVOICE".
Proof. reflexivity. Qed.

Example render_one_absent :
  injectVariables (js "Generate {{count}} images for {{pack_name}}")
    [ (js "count", js "10") ]
  = js "Generate 10 images for {{pack_name}}".
Proof. reflexivity. Qed.

(** C5, at a name that [Object.prototype] defines: [constructor] is scanned
    from the template and has no entry in the store, but the property read
    finds the inherited member, so the marker is replaced by the text of a
    built-in function instead of being kept. *)
Theorem inherited_name_loses_marker :
  In (js "constructor") (detectPlaceholders (js "Run {{constructor}}"))
  /\ own_get (js "constructor") DEFAULT_VARIABLES = None
  /\ injectVariables (js "Run {{constructor}}") DEFAULT_VARIABLES
     = js "Run function Object() { [native code] }"
  /\ includes (marker (js "constructor"))
       (injectVariables (js "Run {{constructor}}") DEFAULT_VARIABLES) = false.
Proof.
  repeat split.
  vm_compute. auto.
Qed.

(** ** The pack section and the composer *)

Lemma split_lines_nonempty s : split_lines s <> [].
Proof.
  destruct s as [|c s]; simpl; [discriminate|].
  destruct (c =? LF)%N; [discriminate|].
  destruct (split_lines s); discriminate.
Qed.

(** Joining the pieces of [split] with the separator gives the text back. *)
Lemma join_split_lines s : join [LF] (split_lines s) = s.
Proof.
  induction s as [|c s IH]; simpl; auto.
  destruct (N.eqb_spec c LF) as [->|Hc].
  - pose proof (split_lines_nonempty s) as Hne.
    cbn [join]. destruct (split_lines s) as [|l ls]; [congruence|].
    simpl. f_equal. exact IH.
  - pose proof (split_lines_nonempty s) as Hne.
    destruct (split_lines s) as [|l ls]; [congruence|].
    rewrite <- IH. destruct ls; reflexivity.
Qed.

Lemma split_lines_no_LF s : Forall (fun line => ~ In LF line) (split_lines s).
Proof.
  induction s as [|c s IH]; simpl.
  - repeat constructor. auto.
  - destruct (N.eqb_spec c LF) as [->|Hc].
    + constructor; auto.
    + destruct (split_lines s) as [|l ls]; inversion IH; subst; constructor; auto;
        simpl; intuition congruence.
Qed.

(** Refutes C3 as stated: the program puts no blank line between the
    pack-name line and the objective line. *)
Lemma packToMarkdown_no_blank_after_pack_name :
  packToMarkdown scenario_pack
  <> join [LF]
       [ js "Pack Name: US_ID_V1"; []; js "Objective: G"; [];
         js "Per Image Directives:"; js "- a"; js "- b"; [];
         js "System Notes: N" ].
Proof. vm_compute. discriminate. Qed.

(** C3, amended: the pack section is the pack-name line, directly followed
    by the objective line, a blank line, the directives heading with one
    bullet per line of the directive list, a blank line and the system-notes
    line; the scenario pack renders as those lines with its values. *)
Theorem packToMarkdown_layout (pack : PackPrompt) :
  packToMarkdown pack
  = js "Pack Name: " ++ packName pack ++ [LF]
    ++ js "Objective: " ++ goal pack ++ [LF]
    ++ [LF]
    ++ js "Per Image Directives:" ++ [LF]
    ++ join [LF] (List.map (fun line => js "- " ++ line) (split_lines (perImage pack)))
    ++ [LF]
    ++ [LF]
    ++ js "System Notes: " ++ systemNotes pack
  /\ join [LF] (split_lines (perImage pack)) = perImage pack
  /\ Forall (fun line => ~ In LF line) (split_lines (perImage pack))
  /\ packToMarkdown scenario_pack
     = join [LF]
         [ js "Pack Name: US_ID_V1"; js "Objective: G"; [];
           js "Per Image Directives:"; js "- a"; js "- b"; [];
           js "System Notes: N" ].
Proof.
  split; [|split; [|split]].
  - unfold packToMarkdown. cbn [join]. rewrite <- !app_assoc. reflexivity.
  - apply join_split_lines.
  - apply split_lines_no_LF.
  - reflexivity.
Qed.

(** C8: with an active pack the combined text is the rendered template,
    the divider (two line feeds, three hyphens, two line feeds) and the pack
    section; with none it is the rendered template alone. *)
Theorem combine_layout (rendered : jsstring) (pack : PackPrompt) (st : State) :
  combine rendered (Some pack)
  = rendered ++ [10; 10; 45; 45; 45; 10; 10]%N ++ packToMarkdown pack
  /\ combine rendered None = rendered
  /\ combinedPrompt st
     = combine (injectVariables (metaPrompt st) (variables st)) (selectedPack st).
Proof. repeat split. Qed.

(** ** Selection *)

Lemma find_some_In (A : Type) (p : A -> bool) l x : find p l = Some x -> In x l.
Proof. intros H. now apply find_some in H. Qed.

Lemma app_longer (A : Type) (l extra : list A) : extra <> [] -> l ++ extra <> l.
Proof.
  intros Hne Heq. apply (f_equal (@length A)) in Heq. rewrite length_app in Heq.
  destruct extra; [congruence | simpl in Heq; lia].
Qed.

(** C10: with a non-empty registry the active pack is always some record of
    it, the first one when the stored id matches none, so the combined text
    carries the divider and the snapshot carries a pack object, never the
    no-pack forms. *)
Theorem selectedPack_resolves (st : State) :
  packs st <> [] ->
  exists pack,
    selectedPack st = Some pack
    /\ In pack (packs st)
    /\ (find (fun p => str_eqb (id p) (selectedPackId st)) (packs st) = None ->
        hd_error (packs st) = Some pack)
    /\ combinedPrompt st = finalPrompt st ++ divider ++ packToMarkdown pack
    /\ combinedPrompt st <> finalPrompt st
    /\ snapshot_object st
       = JObject [ (js "metaPrompt", JString (finalPrompt st));
                   (js "selectedPack", snapshot_pack pack);
                   (js "variables", snapshot_variables (variables st)) ].
Proof.
  intros Hne. unfold combinedPrompt, snapshot_object, selectedPack.
  destruct (find _ (packs st)) as [pack|] eqn:Hfind.
  - exists pack. repeat split; auto.
    + eapply find_some_In; eauto.
    + discriminate.
    + apply app_longer. discriminate.
  - destruct (packs st) as [|first rest]; [congruence|].
    exists first. simpl. repeat split; auto.
    apply app_longer. discriminate.
Qed.

(** The seed registry with a stored id that matches no pack. *)
Lemma selectedPack_resolves_witness :
  let st := mkState DEFAULT_META_PROMPT DEFAULT_VARIABLES DEFAULT_PACKS (js "nope") in
  packs st <> []
  /\ exists pack,
      selectedPack st = Some pack
      /\ In pack (packs st)
      /\ (find (fun p => str_eqb (id p) (selectedPackId st)) (packs st) = None ->
          hd_error (packs st) = Some pack)
      /\ combinedPrompt st = finalPrompt st ++ divider ++ packToMarkdown pack
      /\ combinedPrompt st <> finalPrompt st
      /\ snapshot_object st
         = JObject [ (js "metaPrompt", JString (finalPrompt st));
                     (js "selectedPack", snapshot_pack pack);
                     (js "variables", snapshot_variables (variables st)) ].
Proof.
  intros st.
  assert (H : packs st <> []) by (simpl; discriminate).
  exact (conj H (selectedPack_resolves st H)).
Defined.

(** The no-pack forms appear exactly when the registry is empty. *)
Lemma selectedPack_none_iff st : selectedPack st = None <-> packs st = [].
Proof.
  split.
  - intros Hnone. destruct (packs st) as [|p l] eqn:Hp; auto.
    destruct (selectedPack_resolves st) as (pack & Hsel & _); congruence.
  - intros Hp. unfold selectedPack. rewrite Hp. reflexivity.
Qed.

(** Refutes C1 as stated: selecting an id that matches no record replaces
    the stored selection, and the active pack moves from the clicked pack to
    the first one. *)
Lemma select_unknown_changes_selection :
  find (fun item => str_eqb (id item) (js "nope")) (packs us_id_selected) = None
  /\ selectedPackId us_id_selected = js "us_id"
  /\ selectedPackId (handleSelectPack (js "nope") us_id_selected) = js "nope"
  /\ option_map id (selectedPack us_id_selected) = Some (js "us_id")
  /\ option_map id (selectedPack (handleSelectPack (js "nope") us_id_selected))
     = Some (js "tr_invoice")
  /\ selectedPack (handleSelectPack (js "nope") us_id_selected)
     <> selectedPack us_id_selected.
Proof.
  repeat split. vm_compute. discriminate.
Qed.

(** C1, amended: selecting an id that matches no record leaves every pack
    record, the template and the variable store (so also [pack_name])
    unchanged; the id is stored as the selection all the same, and the active
    pack becomes the first record of the registry. *)
Theorem handleSelectPack_unknown_id (st : State) (packId : jsstring) :
  find (fun item => str_eqb (id item) packId) (packs st) = None ->
  packs (handleSelectPack packId st) = packs st
  /\ variables (handleSelectPack packId st) = variables st
  /\ metaPrompt (handleSelectPack packId st) = metaPrompt st
  /\ selectedPackId (handleSelectPack packId st) = packId
  /\ selectedPack (handleSelectPack packId st) = hd_error (packs st).
Proof.
  intros Hfind. unfold handleSelectPack. rewrite Hfind. cbv zeta.
  repeat split. unfold selectedPack. simpl. now rewrite Hfind.
Qed.

(** The same selection, seen through the amended statement. *)
Lemma handleSelectPack_unknown_id_witness :
  find (fun item => str_eqb (id item) (js "nope")) (packs us_id_selected) = None
  /\ packs (handleSelectPack (js "nope") us_id_selected) = packs us_id_selected
  /\ variables (handleSelectPack (js "nope") us_id_selected) = variables us_id_selected
  /\ metaPrompt (handleSelectPack (js "nope") us_id_selected) = metaPrompt us_id_selected
  /\ selectedPackId (handleSelectPack (js "nope") us_id_selected) = js "nope"
  /\ selectedPack (handleSelectPack (js "nope") us_id_selected)
     = hd_error (packs us_id_selected).
Proof.
  assert (H : find (fun item => str_eqb (id item) (js "nope")) (packs us_id_selected)
              = None) by reflexivity.
  exact (conj H (handleSelectPack_unknown_id us_id_selected (js "nope") H)).
Defined.

(** ** The variable store *)

Lemma own_get_update_same key value o :
  own_get key o <> None -> own_get key (own_update key value o) = Some value.
Proof.
  induction o as [|[k v] o IH]; simpl; [congruence|].
  destruct (str_eqb k key) eqn:Hk; simpl; rewrite Hk; auto.
Qed.

Lemma own_get_update_other key value o k' :
  k' <> key -> own_get k' (own_update key value o) = own_get k' o.
Proof.
  intros Hne. induction o as [|[k v] o IH]; simpl; auto.
  destruct (str_eqb k key) eqn:Hk; simpl.
  - apply str_eqb_eq in Hk. subst k.
    destruct (str_eqb key k') eqn:Hk'; auto.
    apply str_eqb_eq in Hk'. congruence.
  - rewrite IH. reflexivity.
Qed.

Lemma own_get_insert_same i key value o :
  own_get key o = None -> own_get key (insert_index i key value o) = Some value.
Proof.
  induction o as [|[k v] o IH]; simpl.
  - now rewrite str_eqb_refl.
  - destruct (str_eqb k key) eqn:Hk; [discriminate|]. intros Hnone.
    destruct (array_index k) as [j|]; [destruct (j <? i)%N|]; simpl;
      rewrite ?Hk, ?str_eqb_refl; auto.
Qed.

Lemma own_get_insert_other i key value o k' :
  k' <> key -> own_get k' (insert_index i key value o) = own_get k' o.
Proof.
  intros Hne.
  assert (Hkey : str_eqb key k' = false) by (apply str_eqb_neq; congruence).
  induction o as [|[k v] o IH]; simpl.
  - now rewrite Hkey.
  - destruct (array_index k) as [j|]; [destruct (j <? i)%N|]; simpl;
      rewrite ?Hkey, ?IH; auto.
Qed.

Lemma own_get_app key o o' :
  own_get key (o ++ o') =
  match own_get key o with Some v => Some v | None => own_get key o' end.
Proof.
  induction o as [|[k v] o IH]; simpl; auto.
  destruct (str_eqb k key); auto.
Qed.

(** Reading a key just written gives the value written. *)
Lemma obj_set_same key value o : own_get key (obj_set key value o) = Some value.
Proof.
  unfold obj_set. destruct (own_get key o) as [v0|] eqn:Hget.
  - apply own_get_update_same. congruence.
  - destruct (array_index key).
    + now apply own_get_insert_same.
    + rewrite own_get_app, Hget. simpl. now rewrite str_eqb_refl.
Qed.

(** Writing a key leaves every other key as it was. *)
Lemma obj_set_other key value o k' :
  k' <> key -> own_get k' (obj_set key value o) = own_get k' o.
Proof.
  intros Hne. unfold obj_set. destruct (own_get key o) as [v0|] eqn:Hget.
  - now apply own_get_update_other.
  - destruct (array_index key).
    + now apply own_get_insert_other.
    + rewrite own_get_app. destruct (own_get k' o); auto. simpl.
      destruct (str_eqb key k') eqn:Hk; auto.
      apply str_eqb_eq in Hk. congruence.
Qed.

(** ** Field edits *)

Lemma get_set_field_same field value pack :
  get_field field (set_field field value pack) = value.
Proof. destruct field; reflexivity. Qed.

Lemma get_set_field_other field other value pack :
  other <> field -> get_field other (set_field field value pack) = get_field other pack.
Proof. destruct field, other; simpl; congruence. Qed.

Lemma nth_error_In_id (l : list PackPrompt) i pack :
  nth_error l i = Some pack -> nth_error (List.map id l) i = Some (id pack).
Proof. intros H. rewrite nth_error_map, H. reflexivity. Qed.

(** C7: with distinct ids in the registry, editing a field through
    [handlePackFieldChange] rewrites that one field of the record whose id
    is the selected one and nothing else in the registry; the selection and
    the template stay; and an edit of [packName] also stores the new value
    under [pack_name], other variables untouched, while an edit of another
    field leaves the variables alone. *)
Theorem handlePackFieldChange_frame
        (st : State) (field : PackKey) (value : jsstring) :
  NoDup (List.map id (packs st)) ->
  length (packs (handlePackFieldChange field value st)) = length (packs st)
  /\ (forall i pack, nth_error (packs st) i = Some pack ->
        nth_error (packs (handlePackFieldChange field value st)) i
        = Some (if str_eqb (id pack) (selectedPackId st)
                then set_field field value pack else pack))
  /\ (forall pack other,
        get_field field (set_field field value pack) = value
        /\ (other <> field ->
            get_field other (set_field field value pack) = get_field other pack))
  /\ (forall i j pack, nth_error (packs st) i = Some pack ->
        id pack = selectedPackId st -> j <> i ->
        nth_error (packs (handlePackFieldChange field value st)) j
        = nth_error (packs st) j)
  /\ selectedPackId (handlePackFieldChange field value st) = selectedPackId st
  /\ metaPrompt (handlePackFieldChange field value st) = metaPrompt st
  /\ (field = key_packName ->
        own_get (js "pack_name") (variables (handlePackFieldChange field value st))
        = Some value
        /\ Get (variables (handlePackFieldChange field value st)) (js "pack_name")
           = OwnString value
        /\ forall key, key <> js "pack_name" ->
             own_get key (variables (handlePackFieldChange field value st))
             = own_get key (variables st))
  /\ (field <> key_packName ->
        variables (handlePackFieldChange field value st) = variables st).
Proof.
  intros Hnodup.
  assert (Hpacks : packs (handlePackFieldChange field value st)
                   = List.map (fun pack =>
                                 if str_eqb (id pack) (selectedPackId st)
                                 then set_field field value pack else pack)
                              (packs st))
    by (unfold handlePackFieldChange; destruct (PackKey_eqb field key_packName);
        reflexivity).
  rewrite Hpacks.
  split; [apply length_map|].
  split; [intros i pack Hi; rewrite nth_error_map, Hi; reflexivity|].
  split; [intros pack other; split;
          [apply get_set_field_same | apply get_set_field_other]|].
  split.
  { intros i j pack Hi Hid Hj. rewrite nth_error_map.
    destruct (nth_error (packs st) j) as [other|] eqn:Hother; simpl; auto.
    destruct (str_eqb (id other) (selectedPackId st)) eqn:Hsel; auto.
    apply str_eqb_eq in Hsel. exfalso. apply Hj.
    apply nth_error_In_id in Hi. apply nth_error_In_id in Hother.
    eapply (proj1 (NoDup_nth_error (List.map id (packs st)))); eauto.
    - apply nth_error_Some. congruence.
    - congruence. }
  unfold handlePackFieldChange.
  destruct field; simpl; repeat split; try congruence; intros.
  - apply obj_set_same.
  - unfold Get. now rewrite obj_set_same.
  - now apply obj_set_other.
Qed.

(** The scenario of the specification: the pack identifier of the active
    seed pack becomes FOO, and so does the variable. *)
Lemma handlePackFieldChange_frame_witness :
  NoDup (List.map id (packs us_id_selected))
  /\ own_get (js "pack_name")
       (variables (handlePackFieldChange key_packName (js "FOO") us_id_selected))
     = Some (js "FOO")
  /\ List.map packName (packs (handlePackFieldChange key_packName (js "FOO") us_id_selected))
     = [js "TR_INVOICE"; js "FOO"; js "PARKING_NOTICE_EU"].
Proof.
  assert (H : NoDup (List.map id (packs us_id_selected))).
  { vm_compute. repeat constructor; simpl; intuition discriminate. }
  split; [exact H|].
  destruct (handlePackFieldChange_frame us_id_selected key_packName (js "FOO") H)
    as (_ & _ & _ & _ & _ & _ & Hname & _).
  split; [exact (proj1 (Hname eq_refl)) | reflexivity].
Defined.

(** ** Identifiers of new packs *)

Lemma js_inj a b : js a = js b -> a = b.
Proof.
  unfold js. intros H.
  rewrite <- (string_of_list_ascii_of_string a), <- (string_of_list_ascii_of_string b).
  f_equal. revert H.
  generalize (list_ascii_of_string a) (list_ascii_of_string b).
  induction l as [|x l IH]; intros [|y l']; simpl; try discriminate; auto.
  intros H. injection H as Hxy Hl. f_equal; auto.
  rewrite <- (ascii_N_embedding x), <- (ascii_N_embedding y). congruence.
Qed.

Lemma number_to_string_inj n m : number_to_string n = number_to_string m -> n = m.
Proof.
  unfold number_to_string. intros H. apply js_inj in H.
  apply (f_equal DecimalString.NilEmpty.uint_of_string) in H.
  rewrite !DecimalString.NilEmpty.usu in H. injection H as H.
  apply (f_equal Nat.of_uint) in H.
  now rewrite !DecimalNat.Unsigned.of_to in H.
Qed.

Lemma issued_S n : issued (S n) = issued n ++ [id (newPack (4 + n))].
Proof. unfold issued. rewrite seq_S, map_app. reflexivity. Qed.

Lemma issued_mono n m x : n <= m -> In x (issued n) -> In x (issued m).
Proof.
  unfold issued. rewrite !in_map_iff. intros Hle (k & Hk & Hin).
  exists k. split; auto. apply in_seq in Hin. apply in_seq. lia.
Qed.

Lemma newPack_id_not_seed k : ~ In (id (newPack k)) (List.map id DEFAULT_PACKS).
Proof.
  simpl. generalize (number_to_string k). intros x.
  vm_compute. intuition discriminate.
Qed.

Lemma newPack_id_not_issued n k : 4 + n <= k -> ~ In (id (newPack k)) (issued n).
Proof.
  unfold issued. rewrite in_map_iff. intros Hle (j & Hj & Hin).
  apply in_seq in Hin. simpl in Hj. injection Hj as Hj.
  apply number_to_string_inj in Hj. lia.
Qed.

Lemma ids_length st n :
  ids st = List.map id DEFAULT_PACKS ++ issued n -> length (packs st) = 3 + n.
Proof.
  intros H. apply (f_equal (@length jsstring)) in H.
  unfold ids, issued in H. rewrite length_app, !length_map, length_seq in H.
  exact H.
Qed.

Lemma ids_field_edit field value selected l :
  field <> key_id ->
  List.map id (List.map (fun pack =>
                           if str_eqb (id pack) selected
                           then set_field field value pack else pack) l)
  = List.map id l.
Proof.
  intros Hf. rewrite map_map. apply map_ext. intros pack.
  destruct (str_eqb (id pack) selected); auto.
  destruct field; simpl; congruence.
Qed.

(** One wired event keeps the ids already issued and adds at most the next
    one. *)
Lemma step_ids st ev n :
  wired ev = true ->
  ids st = List.map id DEFAULT_PACKS ++ issued n ->
  exists m, n <= m /\ ids (step st ev) = List.map id DEFAULT_PACKS ++ issued m.
Proof.
  intros Hw Hids. destruct ev as [text | variable value | packId | field value | | ];
    cbn [step].
  - exists n. auto.
  - exists n. auto.
  - exists n. split; auto. unfold handleSelectPack.
    destruct (find _ (packs st)); exact Hids.
  - exists n. split; auto. rewrite <- Hids. unfold handlePackFieldChange, ids.
    assert (Hf : field <> key_id) by (destruct field; simpl in Hw; congruence).
    destruct (PackKey_eqb field key_packName); simpl; now apply ids_field_edit.
  - exists n. split; auto. unfold applyPackName.
    destruct (selectedPack st); exact Hids.
  - exists (S n). split; [lia|]. unfold addNewPack, ids. cbn [packs handleVariableChange].
    rewrite map_app. fold (ids st). rewrite Hids, issued_S, <- app_assoc.
    rewrite (ids_length _ _ Hids), Nat.add_1_r. reflexivity.
Qed.

Lemma steps_ids events :
  forall st n,
    forallb wired events = true ->
    ids st = List.map id DEFAULT_PACKS ++ issued n ->
    exists m, n <= m
      /\ ids (fold_left step events st) = List.map id DEFAULT_PACKS ++ issued m.
Proof.
  induction events as [|ev events IH]; intros st n Hw Hids; simpl.
  - exists n. auto.
  - simpl in Hw. apply andb_true_iff in Hw as [Hev Hw].
    destruct (step_ids st ev n Hev Hids) as (m & Hnm & Hm).
    destruct (IH _ _ Hw Hm) as (m' & Hmm' & Hm').
    exists m'. split; [lia | exact Hm'].
Qed.

Lemma issued_NoDup n : NoDup (issued n).
Proof.
  unfold issued. apply NoDup_map_NoDup_ForallPairs; [|apply seq_NoDup].
  intros j k _ _ H. simpl in H. injection H as H. now apply number_to_string_inj.
Qed.

(** The data model's invariant: in every state of a session the ids of the
    registry are pairwise distinct. *)
Lemma run_ids_NoDup events :
  forallb wired events = true -> NoDup (ids (run events)).
Proof.
  intros Hw.
  destruct (steps_ids events initial_state 0 Hw eq_refl) as (m & _ & Hm).
  fold (run events) in Hm. rewrite Hm. apply NoDup_app.
  - vm_compute. repeat constructor; simpl; intuition discriminate.
  - apply issued_NoDup.
  - intros x Hseed Hissued. unfold issued in Hissued.
    apply in_map_iff in Hissued as (k & <- & _).
    exact (newPack_id_not_seed k Hseed).
Qed.

(** The store keeps an own [pack_name] throughout a session. *)
Lemma run_pack_name_set events :
  own_get (js "pack_name") (variables (run events)) <> None.
Proof.
  unfold run.
  assert (Hinit : own_get (js "pack_name") (variables initial_state) <> None)
    by (vm_compute; discriminate).
  revert Hinit. generalize initial_state.
  assert (Hset : forall key value o,
             own_get (js "pack_name") o <> None ->
             own_get (js "pack_name") (obj_set key value o) <> None).
  { intros key value o Ho. destruct (jsstring_dec (js "pack_name") key) as [<-|Hne].
    - rewrite obj_set_same. discriminate.
    - now rewrite obj_set_other. }
  induction events as [|ev events IH]; intros st Hst; simpl; auto.
  apply IH. destruct ev as [text | variable value | packId | field value | | ];
    cbn [step]; auto.
  - now apply Hset.
  - unfold handleSelectPack. destruct (find _ (packs st)); auto. now apply Hset.
  - unfold handlePackFieldChange.
    destruct (PackKey_eqb field key_packName); auto. now apply Hset.
  - unfold applyPackName. destruct (selectedPack st); auto. now apply Hset.
  - unfold addNewPack. now apply Hset.
Qed.

Lemma find_app_fresh (p : PackPrompt -> bool) l x :
  (forall y, In y l -> p y = false) -> p x = true -> find p (l ++ [x]) = Some x.
Proof.
  intros Hl Hx. induction l as [|y l IH]; simpl.
  - now rewrite Hx.
  - rewrite (Hl y) by (left; reflexivity). apply IH. intros z Hz. apply Hl. now right.
Qed.

(** C6: in any state reached from the start of the session by wired events
    (so in particular by a sequence of adds), [addNewPack] appends exactly
    one record; its id differs from the id of every pack of the current
    state and of every earlier state of the session; the new record becomes
    the active pack; and [pack_name] holds its pack identifier. *)
Theorem addNewPack_appends_fresh_active (earlier later : list Event) :
  forallb wired (earlier ++ later) = true ->
  exists pack,
    packs (addNewPack (run (earlier ++ later)))
    = packs (run (earlier ++ later)) ++ [pack]
    /\ length (packs (addNewPack (run (earlier ++ later))))
       = S (length (packs (run (earlier ++ later))))
    /\ pack = newPack (S (length (packs (run (earlier ++ later)))))
    /\ ~ In (id pack) (ids (run (earlier ++ later)))
    /\ ~ In (id pack) (ids (run earlier))
    /\ selectedPackId (addNewPack (run (earlier ++ later))) = id pack
    /\ selectedPack (addNewPack (run (earlier ++ later))) = Some pack
    /\ own_get (js "pack_name") (variables (addNewPack (run (earlier ++ later))))
       = Some (packName pack).
Proof.
  intros Hw. rewrite forallb_app in Hw. apply andb_true_iff in Hw as [Hw1 Hw2].
  assert (Hinit : ids initial_state = List.map id DEFAULT_PACKS ++ issued 0)
    by reflexivity.
  destruct (steps_ids earlier initial_state 0 Hw1 Hinit) as (n & _ & Hn).
  fold (run earlier) in Hn.
  destruct (steps_ids later (run earlier) n Hw2 Hn) as (m & Hnm & Hm).
  assert (Hrun : fold_left step later (run earlier) = run (earlier ++ later))
    by (unfold run; now rewrite fold_left_app).
  rewrite Hrun in Hm. set (st := run (earlier ++ later)) in *.
  pose proof (ids_length _ _ Hm) as Hlen.
  set (pack := newPack (S (length (packs st)))).
  assert (Hfresh : ~ In (id pack) (ids st)).
  { rewrite Hm, in_app_iff. intros [Hseed | Hissued].
    - exact (newPack_id_not_seed _ Hseed).
    - apply (newPack_id_not_issued m (S (length (packs st)))); auto. lia. }
  assert (Hadd : addNewPack st
                 = handleVariableChange (js "pack_name") (packName pack)
                     (mkState (metaPrompt st) (variables st) (packs st ++ [pack])
                              (id pack))).
  { unfold addNewPack, pack. now rewrite Nat.add_1_r. }
  exists pack. rewrite Hadd. simpl.
  split; [reflexivity|]. split; [rewrite length_app; simpl; lia|].
  split; [reflexivity|]. split; [exact Hfresh|]. split.
  { rewrite Hn, in_app_iff. intros [Hseed | Hissued].
    - exact (newPack_id_not_seed _ Hseed).
    - apply Hfresh. rewrite Hm, in_app_iff. right. eapply issued_mono; eauto. }
  split; [reflexivity|]. split.
  - unfold selectedPack. simpl. rewrite find_app_fresh; auto.
    + intros y Hy. apply str_eqb_neq. intros Heq. apply Hfresh.
      unfold ids. apply in_map_iff. exists y. split; [exact Heq | exact Hy].
    + apply str_eqb_refl.
  - apply obj_set_same.
Qed.

(** A third add in a session with two adds and a click. *)
Lemma addNewPack_appends_fresh_active_witness :
  forallb wired ([ClickNewPack; ClickPack (js "us_id")] ++ [ClickNewPack]) = true
  /\ exists pack,
      packs (addNewPack (run ([ClickNewPack; ClickPack (js "us_id")] ++ [ClickNewPack])))
      = packs (run ([ClickNewPack; ClickPack (js "us_id")] ++ [ClickNewPack])) ++ [pack]
      /\ id pack = js "pack_6"
      /\ ~ In (id pack) (ids (run [ClickNewPack; ClickPack (js "us_id")])).
Proof.
  assert (H : forallb wired ([ClickNewPack; ClickPack (js "us_id")] ++ [ClickNewPack])
              = true) by reflexivity.
  split; [exact H|].
  destruct (addNewPack_appends_fresh_active
              [ClickNewPack; ClickPack (js "us_id")] [ClickNewPack] H)
    as (pack & Hpacks & _ & Hpack & _ & Hearlier & _).
  exists pack. split; [exact Hpacks|]. split; [|exact Hearlier].
  rewrite Hpack. reflexivity.
Defined.

(** ** The snapshot *)

Lemma SerializeJSON_array gap indent items :
  gap <> [] -> items <> [] ->
  SerializeJSON gap indent (JArray items)
  = js "[" ++ [LF] ++ (indent ++ gap)
    ++ join (js "," ++ [LF] ++ (indent ++ gap))
         (List.map (SerializeJSON gap (indent ++ gap)) items)
    ++ [LF] ++ indent ++ js "]".
Proof. destruct gap, items; try congruence; reflexivity. Qed.

Lemma SerializeJSON_object gap indent members :
  gap <> [] -> members <> [] ->
  SerializeJSON gap indent (JObject members)
  = js "{" ++ [LF] ++ (indent ++ gap)
    ++ join (js "," ++ [LF] ++ (indent ++ gap))
         (List.map (fun m => QuoteJSONString (fst m) ++ js ": "
                               ++ SerializeJSON gap (indent ++ gap) (snd m))
            members)
    ++ [LF] ++ indent ++ js "}".
Proof. destruct gap, members; try congruence; reflexivity. Qed.

Lemma map_nonempty (A B : Type) (f : A -> B) l : l <> [] -> List.map f l <> [].
Proof. destruct l; simpl; congruence. Qed.

(** The text of the pack member, two levels deep. *)
Lemma snapshot_pack_text pack :
  SerializeJSON (js "  ") (js "  ") (snapshot_pack pack)
  = js "{" ++ [LF]
    ++ js "    " ++ dq ++ js "packName" ++ dq ++ js ": "
    ++ QuoteJSONString (packName pack) ++ js "," ++ [LF]
    ++ js "    " ++ dq ++ js "goal" ++ dq ++ js ": "
    ++ QuoteJSONString (goal pack) ++ js "," ++ [LF]
    ++ js "    " ++ dq ++ js "perImage" ++ dq ++ js ": "
    ++ (js "[" ++ [LF] ++ js "      "
        ++ join (js "," ++ [LF] ++ js "      ")
             (List.map (fun line => QuoteJSONString (trim line))
                       (split_lines (perImage pack)))
        ++ [LF] ++ js "    ]") ++ js "," ++ [LF]
    ++ js "    " ++ dq ++ js "systemNotes" ++ dq ++ js ": "
    ++ QuoteJSONString (systemNotes pack) ++ [LF]
    ++ js "  }".
Proof.
  unfold snapshot_pack. rewrite SerializeJSON_object by discriminate.
  cbn [List.map fst snd join]. rewrite SerializeJSON_array
    by (try discriminate; apply map_nonempty, split_lines_nonempty).
  rewrite map_map. cbn [SerializeJSON].
  change (QuoteJSONString (js "packName")) with (dq ++ js "packName" ++ dq).
  change (QuoteJSONString (js "goal")) with (dq ++ js "goal" ++ dq).
  change (QuoteJSONString (js "perImage")) with (dq ++ js "perImage" ++ dq).
  change (QuoteJSONString (js "systemNotes")) with (dq ++ js "systemNotes" ++ dq).
  change (js "  " ++ js "  ") with (js "    ").
  change (js "    " ++ js "  ") with (js "      ").
  rewrite <- !app_assoc. reflexivity.
Qed.

(** The text of the variables member: every entry of the store, in
    property order. *)
Lemma snapshot_variables_text values :
  SerializeJSON (js "  ") (js "  ") (snapshot_variables values)
  = match values with
    | [] => js "{}"
    | _ => js "{" ++ [LF] ++ js "    "
           ++ join (js "," ++ [LF] ++ js "    ")
                (List.map (fun kv => QuoteJSONString (fst kv) ++ js ": "
                                       ++ QuoteJSONString (snd kv)) values)
           ++ [LF] ++ js "  }"
    end.
Proof.
  destruct values as [|kv values]; [reflexivity|].
  unfold snapshot_variables. rewrite SerializeJSON_object by discriminate.
  rewrite map_map. reflexivity.
Qed.

(** C9: the snapshot is an object of exactly three members, in this order:
    [metaPrompt] with the rendered template, [selectedPack] with the active
    pack reshaped into [packName], [goal], [perImage] (the directive lines,
    each trimmed) and [systemNotes], or [null] without an active pack, and
    [variables] with every entry of the store whether or not the template
    uses it; its text is that object pretty-printed with two more spaces of
    indentation per level. *)
Theorem snapshot_layout (st : State) :
  snapshot_object st
  = JObject
      [ (js "metaPrompt", JString (injectVariables (metaPrompt st) (variables st)));
        (js "selectedPack",
          match selectedPack st with
          | Some pack =>
              JObject
                [ (js "packName", JString (packName pack));
                  (js "goal", JString (goal pack));
                  (js "perImage",
                    JArray (List.map (fun line => JString (trim line))
                                     (split_lines (perImage pack))));
                  (js "systemNotes", JString (systemNotes pack)) ]
          | None => JNull
          end);
        (js "variables",
          JObject (List.map (fun kv => (fst kv, JString (snd kv))) (variables st))) ]
  /\ snapshot st
     = js "{" ++ [LF]
       ++ js "  " ++ dq ++ js "metaPrompt" ++ dq ++ js ": "
       ++ QuoteJSONString (finalPrompt st) ++ js "," ++ [LF]
       ++ js "  " ++ dq ++ js "selectedPack" ++ dq ++ js ": "
       ++ match selectedPack st with
          | Some pack => SerializeJSON (js "  ") (js "  ") (snapshot_pack pack)
          | None => js "null"
          end ++ js "," ++ [LF]
       ++ js "  " ++ dq ++ js "variables" ++ dq ++ js ": "
       ++ SerializeJSON (js "  ") (js "  ") (snapshot_variables (variables st)) ++ [LF]
       ++ js "}".
Proof.
  split; [reflexivity|].
  unfold snapshot, JSON_stringify, snapshot_object.
  change (repeat 32%N (Nat.min 2 10)) with (js "  ").
  rewrite SerializeJSON_object by discriminate.
  cbn [List.map fst snd join SerializeJSON app].
  change (QuoteJSONString (js "metaPrompt")) with (dq ++ js "metaPrompt" ++ dq).
  change (QuoteJSONString (js "selectedPack")) with (dq ++ js "selectedPack" ++ dq).
  change (QuoteJSONString (js "variables")) with (dq ++ js "variables" ++ dq).
  destruct (selectedPack st) as [pack|]; rewrite <- !app_assoc; reflexivity.
Qed.

(** A snapshot with a stale variable, a tab in a directive line and no
    placeholder left unresolved. *)
Example snapshot_example :
  snapshot
    (mkState (js "Make {{count}}")
       [ (js "count", js "3"); (js "old", js "unused") ]
       [ mkPack (js "p") (js "P") (js "PK") (js "G")
           (js " a " ++ [LF; 9%N] ++ js "b") (js "N") ]
       (js "missing"))
  = join [LF]
      [ js "{";
        js "  " ++ dq ++ js "metaPrompt" ++ dq ++ js ": " ++ dq ++ js "Make 3" ++ dq ++ js ",";
        js "  " ++ dq ++ js "selectedPack" ++ dq ++ js ": {";
        js "    " ++ dq ++ js "packName" ++ dq ++ js ": " ++ dq ++ js "PK" ++ dq ++ js ",";
        js "    " ++ dq ++ js "goal" ++ dq ++ js ": " ++ dq ++ js "G" ++ dq ++ js ",";
        js "    " ++ dq ++ js "perImage" ++ dq ++ js ": [";
        js "      " ++ dq ++ js "a" ++ dq ++ js ",";
        js "      " ++ dq ++ js "b" ++ dq;
        js "    ],";
        js "    " ++ dq ++ js "systemNotes" ++ dq ++ js ": " ++ dq ++ js "N" ++ dq;
        js "  },";
        js "  " ++ dq ++ js "variables" ++ dq ++ js ": {";
        js "    " ++ dq ++ js "count" ++ dq ++ js ": " ++ dq ++ js "3" ++ dq ++ js ",";
        js "    " ++ dq ++ js "old" ++ dq ++ js ": " ++ dq ++ js "unused" ++ dq;
        js "  }";
        js "}" ].
Proof. reflexivity. Qed.

(** * Further properties of the engine *)

(** ** Matching and scanning *)

Lemma match_here_no_lbrace c s : c <> lbrace -> match_here (c :: s) = None.
Proof.
  intros Hc. unfold match_here. simpl.
  destruct (N.eqb_spec c lbrace); [congruence | reflexivity].
Qed.

Lemma search_cons c s :
  search (c :: s)
  = match match_here (c :: s) with
    | Some (group1, rest) => Some ([], group1, rest)
    | None => match search s with
              | Some (before, group1, rest) => Some (c :: before, group1, rest)
              | None => None
              end
    end.
Proof. reflexivity. Qed.

Lemma search_skip before s :
  ~ In lbrace before ->
  search (before ++ s)
  = match search s with
    | Some (b, group1, rest) => Some (before ++ b, group1, rest)
    | None => None
    end.
Proof.
  induction before as [|c before IH]; cbn [app]; intros Hfree.
  - destruct (search s) as [[[b g] r]|]; reflexivity.
  - rewrite search_cons, match_here_no_lbrace, IH by (simpl in Hfree; tauto).
    destruct (search s) as [[[b g] r]|]; reflexivity.
Qed.

Lemma search_nil : search [] = None.
Proof. reflexivity. Qed.

Lemma search_no_lbrace s : ~ In lbrace s -> search s = None.
Proof.
  intros H. rewrite <- (app_nil_r s), search_skip by assumption. reflexivity.
Qed.

Lemma search_at_marker before inner rest :
  ~ In lbrace before -> inner <> [] -> forallb not_brace inner = true ->
  exists group1,
    search (before ++ [lbrace; lbrace] ++ inner ++ [rbrace; rbrace] ++ rest)
    = Some (before, group1, rest)
    /\ normaliseKey group1 = trim inner.
Proof.
  intros Hfree Hne Hinner.
  destruct (match_here_marker inner rest Hne Hinner) as (g & Hm & Hkey).
  exists g. split; auto. rewrite search_skip by assumption.
  cbn [app] in *. rewrite search_cons, Hm. now rewrite app_nil_r.
Qed.

Lemma replacer_key values g g' :
  normaliseKey g = normaliseKey g' -> replacer values g = replacer values g'.
Proof. unfold replacer. cbv zeta. now intros ->. Qed.

Lemma normaliseKey_trim s : normaliseKey (trim s) = normaliseKey s.
Proof. apply trim_idem. Qed.

(** X1: the pattern matches at the start of a text exactly when the text
    opens with two opening braces, a non-empty run without braces and two
    closing braces. *)
Theorem match_here_succeeds_iff (s : jsstring) :
  match_here s <> None
  <-> exists inner rest,
        s = [lbrace; lbrace] ++ inner ++ [rbrace; rbrace] ++ rest
        /\ inner <> [] /\ forallb not_brace inner = true.
Proof.
  split.
  - destruct (match_here s) as [[g rest]|] eqn:Hm; [intros _ | congruence].
    destruct (match_here_shape _ _ _ Hm) as (inner & Hs & Hne & Hfree & _).
    exists inner, rest. auto.
  - intros (inner & rest & -> & Hne & Hfree).
    destruct (match_here_marker inner rest Hne Hfree) as (g & Hm & _).
    rewrite Hm. discriminate.
Qed.

(** X2: rendering and scanning split at a marker. When the text before a
    well-formed marker has no opening brace, the rendered text is that text,
    the replacement for the trimmed content of the marker and the rendering
    of what follows; the scanned names are that trimmed content, unless it
    is empty, followed by the other names scanned from what follows. *)
Theorem marker_splits_render_and_scan
        (before inner rest : jsstring) (values : VariableMap) :
  ~ In lbrace before -> inner <> [] -> forallb not_brace inner = true ->
  injectVariables (before ++ [lbrace; lbrace] ++ inner ++ [rbrace; rbrace] ++ rest)
                  values
  = before ++ replacer values inner ++ injectVariables rest values
  /\ detectPlaceholders
       (before ++ [lbrace; lbrace] ++ inner ++ [rbrace; rbrace] ++ rest)
     = (if 0 <? length (trim inner) then [trim inner] else [])
       ++ List.filter (fun key => negb (str_eqb key (trim inner)))
            (detectPlaceholders rest).
Proof.
  intros Hfree Hne Hinner.
  destruct (search_at_marker before inner rest Hfree Hne Hinner) as (g & Hs & Hkey).
  split.
  - unfold injectVariables. rewrite replace_eq, Hs.
    rewrite (replacer_key values g inner); auto.
  - rewrite !detectPlaceholders_first_occurrences, matches_eq, Hs.
    cbn [List.map first_occurrences]. rewrite Hkey.
    destruct (0 <? length (trim inner)); reflexivity.
Qed.

(** A marker with padding between plain text. *)
Lemma marker_splits_render_and_scan_witness :
  ~ In lbrace (js "Make ")
  /\ js " count " <> []
  /\ forallb not_brace (js " count ") = true
  /\ injectVariables (js "Make {{ count }} of {{count}}") [ (js "count", js "3") ]
     = js "Make 3 of 3"
  /\ detectPlaceholders (js "Make {{ count }} of {{count}}") = [js "count"].
Proof.
  assert (H1 : ~ In lbrace (js "Make ")) by (vm_compute; intuition discriminate).
  assert (H2 : js " count " <> []) by discriminate.
  assert (H3 : forallb not_brace (js " count ") = true) by reflexivity.
  destruct (marker_splits_render_and_scan (js "Make ") (js " count ")
              (js " of {{count}}") [ (js "count", js "3") ] H1 H2 H3) as [Hr Hd].
  split; [exact H1|]. split; [exact H2|]. split; [exact H3|]. split.
  - exact (eq_trans Hr eq_refl).
  - exact (eq_trans Hd eq_refl).
Defined.

(** X3: a template without an opening brace has no placeholders and renders
    to itself, whatever the store holds. *)
Theorem plain_template_untouched (template : jsstring) (values : VariableMap) :
  ~ In lbrace template ->
  detectPlaceholders template = []
  /\ injectVariables template values = template.
Proof.
  intros Hfree. pose proof (search_no_lbrace template Hfree) as Hs. split.
  - unfold detectPlaceholders. now rewrite detect_loop_eq, Hs.
  - unfold injectVariables. now apply replace_without_match.
Qed.

Lemma plain_template_untouched_witness :
  ~ In lbrace (js "No markers here } at all")
  /\ detectPlaceholders (js "No markers here } at all") = []
  /\ injectVariables (js "No markers here } at all") DEFAULT_VARIABLES
     = js "No markers here } at all".
Proof.
  assert (H : ~ In lbrace (js "No markers here } at all"))
    by (vm_compute; intuition discriminate).
  exact (conj H (plain_template_untouched (js "No markers here } at all")
                   DEFAULT_VARIABLES H)).
Defined.

Lemma forallb_rev (p : char -> bool) s : forallb p (rev s) = forallb p s.
Proof.
  induction s as [|c s IH]; simpl; auto.
  rewrite forallb_app, IH. simpl. rewrite andb_true_r. apply andb_comm.
Qed.

Lemma forallb_trimStart (p : char -> bool) s :
  forallb p s = true -> forallb p (trimStart s) = true.
Proof.
  induction s as [|c s IH]; simpl; auto.
  intros H. apply andb_true_iff in H as [Hc Hs].
  destruct (is_space c); simpl; auto. now rewrite Hc, Hs.
Qed.

Lemma forallb_trim (p : char -> bool) s :
  forallb p s = true -> forallb p (trim s) = true.
Proof.
  intros H. unfold trim, trimEnd. rewrite forallb_rev.
  apply forallb_trimStart. rewrite forallb_rev. now apply forallb_trimStart.
Qed.

Lemma matches_brace_free s :
  Forall (fun g => forallb not_brace g = true) (matches s).
Proof.
  induction s as [s Hs | s before g rest Hs IH] using match_induction;
    rewrite matches_eq, Hs; constructor; auto.
  destruct (search_some _ _ _ _ Hs) as (m & _ & Hm & _).
  now destruct (match_here_some _ _ _ Hm) as (_ & _ & _ & _ & _ & Hg & _).
Qed.

Lemma detectPlaceholders_brace_free prompt key :
  In key (detectPlaceholders prompt) ->
  key <> [] /\ forallb not_brace key = true /\ trim key = key.
Proof.
  intros Hin. apply detectPlaceholders_In in Hin as (Hne & g & Hg & <-).
  repeat split; auto.
  - apply forallb_trim.
    exact (proj1 (Forall_forall _ _) (matches_brace_free prompt) g Hg).
  - apply trim_idem.
Qed.

(** X4: the chip the page shows for a detected name, the name wrapped in
    braces, scans back to exactly that name and renders to what the
    replacer gives for it. *)
Theorem detected_name_marker_round_trip
        (prompt key : jsstring) (values : VariableMap) :
  In key (detectPlaceholders prompt) ->
  detectPlaceholders (marker key) = [key]
  /\ injectVariables (marker key) values = replacer values key.
Proof.
  intros Hin.
  destruct (detectPlaceholders_brace_free prompt key Hin) as (Hne & Hfree & Htrim).
  assert (Hnil : ~ In lbrace []) by (simpl; tauto).
  destruct (search_at_marker [] key [] Hnil Hne Hfree) as (g & Hs & Hkey).
  cbn [app] in Hs. unfold marker. cbn [app]. split.
  - rewrite detectPlaceholders_first_occurrences, matches_eq, Hs, matches_eq.
    rewrite search_nil. cbn [List.map first_occurrences List.filter].
    rewrite Hkey, Htrim. destruct key; [congruence | reflexivity].
  - unfold injectVariables. rewrite replace_eq, Hs, replace_eq, search_nil.
    cbn [app]. rewrite app_nil_r. apply replacer_key.
    unfold normaliseKey in *. congruence.
Qed.

Lemma detected_name_marker_round_trip_witness :
  In (js "user_id") (detectPlaceholders DEFAULT_META_PROMPT)
  /\ detectPlaceholders (marker (js "user_id")) = [js "user_id"]
  /\ injectVariables (marker (js "user_id")) DEFAULT_VARIABLES = js "142857".
Proof.
  assert (H : In (js "user_id") (detectPlaceholders DEFAULT_META_PROMPT))
    by (vm_compute; tauto).
  destruct (detected_name_marker_round_trip DEFAULT_META_PROMPT (js "user_id")
              DEFAULT_VARIABLES H) as [Hd Hr].
  split; [exact H|]. split; [exact Hd|]. exact (eq_trans Hr eq_refl).
Defined.

Lemma replace_ext f h s :
  (forall g, In g (matches s) -> f g = h g) -> replace f s = replace h s.
Proof.
  induction s as [s Hs | s before g rest Hs IH] using match_induction;
    rewrite matches_eq, (replace_eq f), (replace_eq h), Hs; auto.
  intros Hfh. rewrite (Hfh g), IH; auto.
  - intros g' Hg'. apply Hfh. now right.
  - now left.
Qed.

(** X5: the rendering reads the store only at the names the scanner
    reports and at the empty name (the key of a marker holding only
    whitespace): two stores that answer alike there render alike, so
    entries the template does not use never influence the output. *)
Theorem render_reads_only_scanned_names
        (template : jsstring) (values values' : VariableMap) :
  (forall key, In key ([] :: detectPlaceholders template) ->
               Get values key = Get values' key) ->
  injectVariables template values = injectVariables template values'.
Proof.
  intros Hsame. unfold injectVariables. apply replace_ext. intros g Hg.
  unfold replacer. cbv zeta. rewrite Hsame; auto.
  destruct (normaliseKey g) as [|c k] eqn:Hkey; [now left | right].
  apply detectPlaceholders_In. split; [discriminate|]. eauto.
Qed.

Lemma render_reads_only_scanned_names_witness :
  let template := js "Make {{count}}" in
  let values := [ (js "count", js "3") ] in
  let values' := [ (js "count", js "3"); (js "old", js "stale") ] in
  (forall key, In key ([] :: detectPlaceholders template) ->
               Get values key = Get values' key)
  /\ injectVariables template values = injectVariables template values'.
Proof.
  intros template values values'.
  assert (H : forall key, In key ([] :: detectPlaceholders template) ->
                          Get values key = Get values' key).
  { intros key Hkey. vm_compute in Hkey.
    destruct Hkey as [<- | [<- | []]]; reflexivity. }
  exact (conj H (render_reads_only_scanned_names template values values' H)).
Defined.

(** ** Rendering twice *)

Lemma braces_closed_app a b :
  braces_closed a = true -> braces_closed b = true -> braces_closed (a ++ b) = true.
Proof.
  induction a as [|c a IH]; cbn [app]; auto.
  cbn [braces_closed]. intros Ha Hb. apply andb_true_iff in Ha as [Hc Ha].
  apply andb_true_iff. split; [|auto].
  destruct a as [|d a]; auto.
  cbn [app]. destruct (c =? lbrace)%N; [discriminate | reflexivity].
Qed.

Lemma braces_closed_free s : forallb not_brace s = true -> braces_closed s = true.
Proof.
  induction s as [|c s IH]; simpl; auto.
  intros H. apply andb_true_iff in H as [Hc Hs]. rewrite IH by assumption.
  unfold not_brace in Hc. destruct (c =? lbrace)%N; [discriminate | reflexivity].
Qed.

Lemma braces_closed_no_match s : braces_closed s = true -> match_here s = None.
Proof.
  intros Hclosed. destruct (match_here s) as [[g rest]|] eqn:Hm; auto. exfalso.
  destruct (match_here_some _ _ _ Hm) as (w1 & w2 & -> & Hw1 & _ & Hg & Hne).
  cbn [app braces_closed] in Hclosed.
  apply andb_true_iff in Hclosed as [_ Hclosed].
  apply andb_true_iff in Hclosed as [Hnext _].
  change (lbrace =? lbrace)%N with true in Hnext. cbv iota in Hnext.
  destruct w1 as [|x w1]; cbn [app] in Hnext.
  - destruct g as [|x g]; [congruence|]. cbn [app] in Hnext.
    simpl in Hg. apply andb_true_iff in Hg as [Hx _]. now rewrite Hx in Hnext.
  - apply spaces_not_brace in Hw1. simpl in Hw1.
    apply andb_true_iff in Hw1 as [Hx _]. now rewrite Hx in Hnext.
Qed.

Lemma braces_closed_search s : braces_closed s = true -> search s = None.
Proof.
  induction s as [|c s IH]; intros Hclosed; [reflexivity|].
  rewrite search_cons, braces_closed_no_match by assumption.
  cbn [braces_closed] in Hclosed. apply andb_true_iff in Hclosed as [_ Hs].
  now rewrite IH.
Qed.

Lemma own_get_In key o v : own_get key o = Some v -> In (key, v) o.
Proof.
  induction o as [|[k w] o IH]; simpl; [discriminate|].
  destruct (str_eqb k key) eqn:Hk; auto.
  apply str_eqb_eq in Hk. intros H. injection H as ->. subst. now left.
Qed.

Lemma outside_markers_eq s :
  outside_markers s
  = match search s with
    | Some (before, _, rest) => before ++ outside_markers rest
    | None => s
    end.
Proof.
  unfold outside_markers. rewrite replace_eq.
  destruct (search s) as [[[b g] r]|]; reflexivity.
Qed.

Lemma render_braces_closed values :
  Forall (fun kv => forallb not_brace (snd kv) = true) values ->
  forall template,
    Forall (fun key => resolved values key = true) (detectPlaceholders template) ->
    forallb not_brace (outside_markers template) = true ->
    braces_closed (injectVariables template values) = true.
Proof.
  intros Hvalues template.
  induction template as [s Hs | s before g rest Hs IH] using match_induction;
    intros Hres Hout; unfold injectVariables; rewrite replace_eq, Hs;
    rewrite outside_markers_eq, Hs in Hout.
  - now apply braces_closed_free.
  - rewrite forallb_app in Hout. apply andb_true_iff in Hout as [Hbefore Hrest].
    assert (Hkeys : forall key, key <> [] -> normaliseKey g = key ->
                                resolved values key = true).
    { intros key Hne Hkey. apply (proj1 (Forall_forall _ _) Hres).
      apply detectPlaceholders_In. split; auto. exists g. split; auto.
      rewrite matches_eq, Hs. now left. }
    apply braces_closed_app; [now apply braces_closed_free|].
    apply braces_closed_app.
    + unfold replacer, Get. cbv zeta.
      destruct (normaliseKey g) as [|c key] eqn:Hkey.
      * destruct (own_get [] values) as [v|] eqn:Hv.
        -- destruct (str_eqb v []); simpl; auto.
           apply braces_closed_free.
           exact (proj1 (Forall_forall _ _) Hvalues _ (own_get_In _ _ _ Hv)).
        -- reflexivity.
      * specialize (Hkeys (c :: key) ltac:(discriminate) eq_refl).
        unfold resolved in Hkeys.
        destruct (own_get (c :: key) values) as [v|] eqn:Hv; [|discriminate].
        rewrite Hkeys. apply braces_closed_free.
        exact (proj1 (Forall_forall _ _) Hvalues _ (own_get_In _ _ _ Hv)).
    + apply IH; auto. apply Forall_forall. intros key Hin.
      apply (proj1 (Forall_forall _ _) Hres).
      apply detectPlaceholders_In in Hin as (Hne & g' & Hg' & Hkey).
      apply detectPlaceholders_In. split; auto. exists g'. split; auto.
      rewrite matches_eq, Hs. now right.
Qed.



(** X6: when every scanned name has a non-empty value, no value contains a
    brace and the template has no brace outside its markers, the rendered
    text contains no marker: scanning it finds no name and rendering it
    again changes nothing. *)
Theorem render_of_clean_inputs_is_final
        (template : jsstring) (values : VariableMap) :
  Forall (fun key => resolved values key = true) (detectPlaceholders template) ->
  Forall (fun kv => forallb not_brace (snd kv) = true) values ->
  forallb not_brace (outside_markers template) = true ->
  search (injectVariables template values) = None
  /\ detectPlaceholders (injectVariables template values) = []
  /\ injectVariables (injectVariables template values) values
     = injectVariables template values.
Proof.
  intros Hres Hvalues Hout.
  assert (Hs : search (injectVariables template values) = None)
    by (apply braces_closed_search, render_braces_closed; assumption).
  repeat split; auto.
  - unfold detectPlaceholders. now rewrite detect_loop_eq, Hs.
  - unfold injectVariables at 1. now apply replace_without_match.
Qed.

Lemma render_of_clean_inputs_is_final_witness :
  let template := js "Generate {{count}} images for {{ pack_name }} {{ }}" in
  let values := [ (js "count", js "10"); (js "pack_name", js "TR_INVOICE") ] in
  Forall (fun key => resolved values key = true) (detectPlaceholders template)
  /\ Forall (fun kv => forallb not_brace (snd kv) = true) values
  /\ forallb not_brace (outside_markers template) = true
  /\ search (injectVariables template values) = None
  /\ detectPlaceholders (injectVariables template values) = []
  /\ injectVariables (injectVariables template values) values
     = injectVariables template values.
Proof.
  intros template values.
  assert (H1 : Forall (fun key => resolved values key = true)
                 (detectPlaceholders template))
    by (vm_compute; repeat constructor).
  assert (H2 : Forall (fun kv => forallb not_brace (snd kv) = true) values)
    by (repeat constructor).
  assert (H3 : forallb not_brace (outside_markers template) = true) by reflexivity.
  exact (conj H1 (conj H2 (conj H3
    (render_of_clean_inputs_is_final template values H1 H2 H3)))).
Defined.

(** ** Writing and reading the store *)

Lemma own_get_obj_set key value o key' :
  own_get key' (obj_set key value o)
  = if str_eqb key key' then Some value else own_get key' o.
Proof.
  destruct (str_eqb key key') eqn:Hk.
  - apply str_eqb_eq in Hk. subst. apply obj_set_same.
  - apply obj_set_other. apply str_eqb_neq in Hk. congruence.
Qed.

Lemma own_update_twice key v1 v2 o :
  own_update key v2 (own_update key v1 o) = own_update key v2 o.
Proof.
  induction o as [|[k v] o IH]; simpl; auto.
  destruct (str_eqb k key) eqn:Hk; simpl; rewrite Hk; congruence.
Qed.

Lemma own_update_insert i key v1 v2 o :
  own_get key o = None ->
  own_update key v2 (insert_index i key v1 o) = insert_index i key v2 o.
Proof.
  induction o as [|[k v] o IH]; simpl.
  - now rewrite str_eqb_refl.
  - destruct (str_eqb k key) eqn:Hk; [discriminate|]. intros Hnone.
    destruct (array_index k) as [j|]; [destruct (j <? i)%N|]; simpl;
      rewrite ?Hk, ?str_eqb_refl, ?IH; auto.
Qed.

Lemma own_update_app_new key v1 v2 o :
  own_get key o = None ->
  own_update key v2 (o ++ [(key, v1)]) = o ++ [(key, v2)].
Proof.
  induction o as [|[k v] o IH]; simpl.
  - now rewrite str_eqb_refl.
  - destruct (str_eqb k key); [discriminate|]. intros H. now rewrite IH.
Qed.

Lemma obj_set_twice key v1 v2 o :
  obj_set key v2 (obj_set key v1 o) = obj_set key v2 o.
Proof.
  unfold obj_set at 1. rewrite obj_set_same. unfold obj_set.
  destruct (own_get key o) as [v0|] eqn:Hget.
  - apply own_update_twice.
  - destruct (array_index key).
    + now apply own_update_insert.
    + now apply own_update_app_new.
Qed.

Lemma own_update_same_value key v o :
  own_get key o = Some v -> own_update key v o = o.
Proof.
  induction o as [|[k w] o IH]; simpl; auto.
  destruct (str_eqb k key); intros H.
  - now injection H as ->.
  - now rewrite IH.
Qed.

(** X7: after [handleVariableChange], reading the written name gives the
    written value and reading any other name gives what it gave before; a
    second write to the same name makes the first one unobservable. *)
Theorem handleVariableChange_read_back
        (st : State) (key key' v1 v2 : jsstring) :
  own_get key' (variables (handleVariableChange key v1 st))
  = (if str_eqb key key' then Some v1 else own_get key' (variables st))
  /\ handleVariableChange key v2 (handleVariableChange key v1 st)
     = handleVariableChange key v2 st.
Proof.
  split.
  - apply own_get_obj_set.
  - unfold handleVariableChange. simpl. now rewrite obj_set_twice.
Qed.

Lemma own_get_keys key o : own_get key o <> None <-> In key (List.map fst o).
Proof.
  induction o as [|[k v] o IH]; simpl; [tauto|].
  destruct (str_eqb k key) eqn:Hk.
  - apply str_eqb_eq in Hk. split; [auto | discriminate].
  - apply str_eqb_neq in Hk. rewrite IH. tauto.
Qed.

Lemma obj_set_keeps_keys key value o :
  incl (List.map fst o) (List.map fst (obj_set key value o)).
Proof.
  intros k Hk. apply own_get_keys. rewrite own_get_obj_set.
  destruct (str_eqb key k); [discriminate | now apply own_get_keys].
Qed.

Lemma step_keeps_keys st ev :
  incl (List.map fst (variables st)) (List.map fst (variables (step st ev))).
Proof.
  destruct ev as [text | variable value | packId | field value | | ]; cbn [step].
  - apply incl_refl.
  - apply obj_set_keeps_keys.
  - unfold handleSelectPack. destruct (find _ (packs st));
      [apply obj_set_keeps_keys | apply incl_refl].
  - unfold handlePackFieldChange. destruct (PackKey_eqb field key_packName);
      [apply obj_set_keeps_keys | apply incl_refl].
  - unfold applyPackName. destruct (selectedPack st);
      [apply obj_set_keeps_keys | apply incl_refl].
  - apply obj_set_keeps_keys.
Qed.

Lemma steps_keep_keys events :
  forall st, incl (List.map fst (variables st))
                  (List.map fst (variables (fold_left step events st))).
Proof.
  induction events as [|ev events IH]; intros st; simpl.
  - apply incl_refl.
  - eapply incl_tran; [apply step_keeps_keys | apply IH].
Qed.

(** X8: no event ever removes an entry of the store: the names present at
    one point of a session are still present at every later point, also
    when the template no longer mentions them. *)
Theorem store_entries_persist (earlier later : list Event) :
  incl (List.map fst (variables (run earlier)))
       (List.map fst (variables (run (earlier ++ later)))).
Proof.
  unfold run. rewrite fold_left_app. apply steps_keep_keys.
Qed.

(** ** Selecting and editing packs *)

Lemma find_same_id (l : list PackPrompt) packId pack :
  find (fun item => str_eqb (id item) packId) l = Some pack -> id pack = packId.
Proof. intros H. apply find_some in H as [_ H]. now apply str_eqb_eq. Qed.

(** X9: selecting the id of a pack of the registry makes the first pack
    with that id the active one, writes its pack identifier under
    [pack_name], and leaves the registry, the template and every other
    variable as they were. *)
Theorem handleSelectPack_known_id
        (st : State) (packId : jsstring) (pack : PackPrompt) (key : jsstring) :
  find (fun item => str_eqb (id item) packId) (packs st) = Some pack ->
  selectedPackId (handleSelectPack packId st) = packId
  /\ selectedPack (handleSelectPack packId st) = Some pack
  /\ packs (handleSelectPack packId st) = packs st
  /\ metaPrompt (handleSelectPack packId st) = metaPrompt st
  /\ own_get key (variables (handleSelectPack packId st))
     = if str_eqb (js "pack_name") key then Some (packName pack)
       else own_get key (variables st).
Proof.
  intros Hfind. unfold handleSelectPack. rewrite Hfind. cbv zeta.
  repeat split.
  - unfold selectedPack. simpl. now rewrite Hfind.
  - simpl. apply own_get_obj_set.
Qed.

Lemma handleSelectPack_known_id_witness :
  find (fun item => str_eqb (id item) (js "parking_tickets")) (packs initial_state)
  = hd_error (skipn 2 DEFAULT_PACKS)
  /\ option_map packName
       (selectedPack (handleSelectPack (js "parking_tickets") initial_state))
     = Some (js "PARKING_NOTICE_EU")
  /\ own_get (js "pack_name")
       (variables (handleSelectPack (js "parking_tickets") initial_state))
     = Some (js "PARKING_NOTICE_EU").
Proof.
  assert (H : find (fun item => str_eqb (id item) (js "parking_tickets"))
                (packs initial_state) = hd_error (skipn 2 DEFAULT_PACKS))
    by reflexivity.
  split; [exact H|].
  destruct (handleSelectPack_known_id initial_state (js "parking_tickets") _
              (js "pack_name") H) as (_ & Hsel & _ & _ & Hvar).
  split.
  - rewrite Hsel. reflexivity.
  - exact (eq_trans Hvar eq_refl).
Defined.

Lemma map_unselected (f : PackPrompt -> PackPrompt) selected l :
  find (fun p => str_eqb (id p) selected) l = None ->
  List.map (fun pack => if str_eqb (id pack) selected then f pack else pack) l = l.
Proof.
  induction l as [|p l IH]; simpl; auto.
  destruct (str_eqb (id p) selected); [discriminate|].
  intros H. now rewrite IH.
Qed.

(** X10: while the stored selection id matches no pack, the form shows the
    first pack of the registry, but an edit typed into it changes no pack
    at all; an edit of the pack identifier still overwrites [pack_name]. *)
Theorem handlePackFieldChange_lost_edit
        (st : State) (field : PackKey) (value : jsstring) :
  find (fun p => str_eqb (id p) (selectedPackId st)) (packs st) = None ->
  selectedPack st = hd_error (packs st)
  /\ packs (handlePackFieldChange field value st) = packs st
  /\ selectedPack (handlePackFieldChange field value st) = selectedPack st
  /\ own_get (js "pack_name")
       (variables (handlePackFieldChange key_packName value st))
     = Some value.
Proof.
  intros Hfind.
  assert (Hpacks : packs (handlePackFieldChange field value st) = packs st).
  { unfold handlePackFieldChange.
    destruct (PackKey_eqb field key_packName); simpl; now apply map_unselected. }
  assert (Hsel : selectedPackId (handlePackFieldChange field value st)
                 = selectedPackId st).
  { unfold handlePackFieldChange.
    destruct (PackKey_eqb field key_packName); reflexivity. }
  repeat split; auto.
  - unfold selectedPack. now rewrite Hfind.
  - unfold selectedPack. now rewrite Hpacks, Hsel.
  - unfold handlePackFieldChange. simpl. apply obj_set_same.
Qed.

Lemma handlePackFieldChange_lost_edit_witness :
  let st := handleSelectPack (js "nope") initial_state in
  find (fun p => str_eqb (id p) (selectedPackId st)) (packs st) = None
  /\ option_map name (selectedPack st) = Some (js "Turkish Invoice Pack")
  /\ packs (handlePackFieldChange key_name (js "Renamed") st) = packs st.
Proof.
  intros st.
  assert (H : find (fun p => str_eqb (id p) (selectedPackId st)) (packs st) = None)
    by reflexivity.
  split; [exact H|]. split; [reflexivity|].
  exact (proj1 (proj2 (handlePackFieldChange_lost_edit st key_name (js "Renamed") H))).
Defined.

Lemma find_map_edit (f : PackPrompt -> PackPrompt) selected l :
  (forall p, id (f p) = id p) ->
  find (fun p => str_eqb (id p) selected)
       (List.map (fun pack => if str_eqb (id pack) selected then f pack else pack) l)
  = option_map f (find (fun p => str_eqb (id p) selected) l).
Proof.
  intros Hid. induction l as [|p l IH]; simpl; auto.
  destruct (str_eqb (id p) selected) eqn:Hp.
  - now rewrite Hid, Hp.
  - now rewrite Hp.
Qed.

Lemma set_field_id field value pack :
  field <> key_id -> id (set_field field value pack) = id pack.
Proof. destruct field; simpl; congruence. Qed.

(** X11: while the stored selection id matches a pack, an edit of any field
    but [id] lands on the pack shown in the form: the active pack afterwards
    is the active pack before with that field replaced. *)
Theorem handlePackFieldChange_edits_active_pack
        (st : State) (field : PackKey) (value : jsstring) (pack : PackPrompt) :
  find (fun p => str_eqb (id p) (selectedPackId st)) (packs st) = Some pack ->
  field <> key_id ->
  selectedPack st = Some pack
  /\ selectedPack (handlePackFieldChange field value st)
     = Some (set_field field value pack).
Proof.
  intros Hfind Hfield. split.
  - unfold selectedPack. now rewrite Hfind.
  - assert (Hpacks : packs (handlePackFieldChange field value st)
                     = List.map (fun p => if str_eqb (id p) (selectedPackId st)
                                          then set_field field value p else p)
                                (packs st))
      by (unfold handlePackFieldChange;
          destruct (PackKey_eqb field key_packName); reflexivity).
    assert (Hsel : selectedPackId (handlePackFieldChange field value st)
                   = selectedPackId st)
      by (unfold handlePackFieldChange;
          destruct (PackKey_eqb field key_packName); reflexivity).
    unfold selectedPack. rewrite Hpacks, Hsel, find_map_edit, Hfind by
        (intros p; now apply set_field_id).
    reflexivity.
Qed.

Lemma handlePackFieldChange_edits_active_pack_witness :
  find (fun p => str_eqb (id p) (selectedPackId us_id_selected)) (packs us_id_selected)
  = hd_error (skipn 1 DEFAULT_PACKS)
  /\ key_goal <> key_id
  /\ option_map goal
       (selectedPack (handlePackFieldChange key_goal (js "New goal") us_id_selected))
     = Some (js "New goal").
Proof.
  assert (H : find (fun p => str_eqb (id p) (selectedPackId us_id_selected))
                (packs us_id_selected) = hd_error (skipn 1 DEFAULT_PACKS))
    by reflexivity.
  assert (Hf : key_goal <> key_id) by discriminate.
  split; [exact H|]. split; [exact Hf|].
  destruct (handlePackFieldChange_edits_active_pack us_id_selected key_goal
              (js "New goal") _ H Hf) as [_ Hsel].
  rewrite Hsel. reflexivity.
Defined.

(** X12: the Apply button copies a non-empty pack identifier of the active
    pack into [pack_name]; with an empty pack identifier it writes back the
    value [pack_name] already has, so nothing changes. *)
Theorem applyPackName_effect (st : State) (pack : PackPrompt) (current : jsstring) :
  selectedPack st = Some pack ->
  own_get (js "pack_name") (variables st) = Some current ->
  applyPackName st
  = (if negb (str_eqb (packName pack) [])
     then handleVariableChange (js "pack_name") (packName pack) st
     else st)
  /\ own_get (js "pack_name") (variables (applyPackName st))
     = Some (if negb (str_eqb (packName pack) []) then packName pack else current).
Proof.
  intros Hsel Hcur. unfold applyPackName. rewrite Hsel, Hcur. cbv zeta.
  destruct (negb (str_eqb (packName pack) [])); split; try reflexivity.
  - apply obj_set_same.
  - unfold handleVariableChange, obj_set. rewrite Hcur.
    rewrite own_update_same_value by assumption. now destruct st.
  - unfold handleVariableChange. simpl. apply obj_set_same.
Qed.

Lemma applyPackName_effect_witness :
  let st := handlePackFieldChange key_packName [] initial_state in
  let st' := handleVariableChange (js "pack_name") (js "MANUAL") st in
  option_map packName (selectedPack st') = Some []
  /\ own_get (js "pack_name") (variables st') = Some (js "MANUAL")
  /\ applyPackName st' = st'.
Proof.
  intros st st'.
  destruct (selectedPack st') as [pack|] eqn:Hsel; [|discriminate].
  assert (Hname : packName pack = []).
  { vm_compute in Hsel. injection Hsel as <-. reflexivity. }
  assert (Hcur : own_get (js "pack_name") (variables st') = Some (js "MANUAL"))
    by reflexivity.
  split; [now rewrite <- Hname|]. split; [exact Hcur|].
  destruct (applyPackName_effect st' pack (js "MANUAL") Hsel Hcur) as [Heq _].
  rewrite Heq, Hname. reflexivity.
Defined.

(** ** Sessions *)

Lemma step_length st ev : length (packs st) <= length (packs (step st ev)).
Proof.
  destruct ev as [text | variable value | packId | field value | | ]; cbn [step];
    auto.
  - unfold handleSelectPack. destruct (find _ (packs st)); auto.
  - unfold handlePackFieldChange. destruct (PackKey_eqb field key_packName);
      simpl; now rewrite length_map.
  - unfold applyPackName. destruct (selectedPack st); auto.
  - unfold addNewPack. simpl. rewrite length_app. lia.
Qed.

Lemma steps_length events :
  forall st, length (packs st) <= length (packs (fold_left step events st)).
Proof.
  induction events as [|ev events IH]; intros st; simpl; auto.
  etransitivity; [apply step_length | apply IH].
Qed.

(** X13: whatever events occur, wired or not, the registry never loses a
    pack: it keeps at least the three seed packs, so in a session there is
    always an active pack and the combined text always carries the
    divider. *)
Theorem session_always_has_active_pack (earlier later : list Event) :
  3 <= length (packs (run earlier))
  /\ length (packs (run earlier)) <= length (packs (run (earlier ++ later)))
  /\ selectedPack (run earlier) <> None
  /\ combinedPrompt (run earlier) <> finalPrompt (run earlier).
Proof.
  assert (H3 : 3 <= length (packs (run earlier)))
    by (unfold run; apply (steps_length earlier initial_state)).
  assert (Hne : packs (run earlier) <> [])
    by (destruct (packs (run earlier)); simpl in H3; [lia | discriminate]).
  split; [exact H3|]. split.
  - unfold run. rewrite fold_left_app. apply steps_length.
  - unfold combinedPrompt, selectedPack.
    destruct (find _ (packs (run earlier))) as [p|].
    + split; [discriminate|]. apply app_longer. discriminate.
    + destruct (packs (run earlier)) as [|p l]; [congruence|].
      split; [discriminate|]. apply app_longer. discriminate.
Qed.

Lemma offered_wired st ev : offered st ev = true -> wired ev = true.
Proof.
  destruct ev as [text | variable value | packId | field value | | ]; auto.
  simpl. destruct field; simpl; auto.
Qed.

Lemma playable_wired events :
  forall st, playable st events = true -> forallb wired events = true.
Proof.
  induction events as [|ev events IH]; intros st; simpl; auto.
  intros H. apply andb_true_iff in H as [Hev H].
  rewrite (offered_wired st ev Hev). simpl. eauto.
Qed.

Lemma step_selection_valid st ev n :
  offered st ev = true ->
  ids st = List.map id DEFAULT_PACKS ++ issued n ->
  In (selectedPackId st) (ids st) ->
  In (selectedPackId (step st ev)) (ids (step st ev)).
Proof.
  intros Hoff Hids Hsel.
  destruct ev as [text | variable value | packId | field value | | ]; cbn [step].
  - exact Hsel.
  - exact Hsel.
  - simpl in Hoff. apply existsb_exists in Hoff as (p & Hp & Heq).
    apply str_eqb_eq in Heq.
    assert (Hin : In packId (ids st))
      by (unfold ids; apply in_map_iff; exists p; auto).
    unfold handleSelectPack. destruct (find _ (packs st)); exact Hin.
  - simpl in Hoff. apply andb_true_iff in Hoff as [Hf _].
    assert (Hfield : field <> key_id) by (destruct field; simpl in Hf; congruence).
    unfold handlePackFieldChange, ids.
    destruct (PackKey_eqb field key_packName); simpl;
      rewrite ids_field_edit by assumption; exact Hsel.
  - unfold applyPackName. destruct (selectedPack st); exact Hsel.
  - unfold addNewPack, ids. simpl. rewrite map_app, in_app_iff. right. now left.
Qed.

Lemma playable_selection_valid events :
  forall st n,
    playable st events = true ->
    ids st = List.map id DEFAULT_PACKS ++ issued n ->
    In (selectedPackId st) (ids st) ->
    In (selectedPackId (fold_left step events st)) (ids (fold_left step events st)).
Proof.
  induction events as [|ev events IH]; intros st n Hplay Hids Hsel; simpl; auto.
  simpl in Hplay. apply andb_true_iff in Hplay as [Hev Hplay].
  destruct (step_ids st ev n (offered_wired st ev Hev) Hids) as (m & _ & Hm).
  apply (IH _ m); auto. eapply step_selection_valid; eauto.
Qed.

Lemma filter_none (A : Type) (p : A -> bool) l :
  (forall x, In x l -> p x = false) -> List.filter p l = [].
Proof.
  induction l as [|a l IH]; simpl; intros H; auto.
  rewrite (H a) by auto. auto.
Qed.

Lemma unique_active (l : list PackPrompt) selected :
  NoDup (List.map id l) -> In selected (List.map id l) ->
  exists pack,
    List.filter (fun p => str_eqb (id p) selected) l = [pack]
    /\ find (fun p => str_eqb (id p) selected) l = Some pack
    /\ id pack = selected.
Proof.
  induction l as [|p l IH]; simpl; [tauto|].
  intros Hnodup Hin. inversion Hnodup as [|x xs Hnotin Hnodup']; subst.
  destruct (str_eqb (id p) selected) eqn:Hp.
  - apply str_eqb_eq in Hp. exists p. repeat split; auto. f_equal.
    apply filter_none. intros q Hq. apply str_eqb_neq. intros Heq.
    apply Hnotin. rewrite Hp, <- Heq. now apply in_map.
  - apply str_eqb_neq in Hp. destruct Hin as [Heq | Hin]; [congruence|].
    exact (IH Hnodup' Hin).
Qed.

(** X14: in a session made of events the page offers, the stored selection
    id is always the id of exactly one pack: exactly one card is drawn as
    selected, and it is the pack the form and the composer use. *)
Theorem offered_session_has_one_active_card (events : list Event) :
  playable initial_state events = true ->
  exists pack,
    activeCards (run events) = [pack]
    /\ selectedPack (run events) = Some pack
    /\ id pack = selectedPackId (run events).
Proof.
  intros Hplay.
  pose proof (run_ids_NoDup events (playable_wired events _ Hplay)) as Hnodup.
  assert (Hsel : In (selectedPackId (run events)) (ids (run events))).
  { unfold run. apply (playable_selection_valid events initial_state 0);
      [exact Hplay | reflexivity | vm_compute; tauto]. }
  destruct (unique_active (packs (run events)) (selectedPackId (run events))
              Hnodup Hsel) as (pack & Hfilter & Hfind & Hid).
  exists pack. repeat split; auto.
  unfold selectedPack. now rewrite Hfind.
Qed.

Lemma offered_session_has_one_active_card_witness :
  playable initial_state
    [ClickNewPack; TypePackField key_packName (js "MINE"); ClickPack (js "us_id")]
  = true
  /\ exists pack,
      activeCards (run [ClickNewPack; TypePackField key_packName (js "MINE");
                        ClickPack (js "us_id")]) = [pack]
      /\ selectedPack (run [ClickNewPack; TypePackField key_packName (js "MINE");
                            ClickPack (js "us_id")]) = Some pack
      /\ id pack = selectedPackId (run [ClickNewPack;
                                        TypePackField key_packName (js "MINE");
                                        ClickPack (js "us_id")]).
Proof.
  assert (H : playable initial_state
                [ClickNewPack; TypePackField key_packName (js "MINE");
                 ClickPack (js "us_id")] = true) by reflexivity.
  exact (conj H (offered_session_has_one_active_card _ H)).
Defined.

(** ** Lines of the pack section *)

Lemma split_lines_single l : ~ In LF l -> split_lines l = [l].
Proof.
  induction l as [|c l IH]; simpl; auto. intros H.
  destruct (N.eqb_spec c LF) as [->|_]; [tauto|].
  rewrite IH by tauto. reflexivity.
Qed.

Lemma split_lines_app_LF l s :
  ~ In LF l -> split_lines (l ++ LF :: s) = l :: split_lines s.
Proof.
  induction l as [|c l IH]; intros H.
  - reflexivity.
  - cbn [app split_lines]. destruct (N.eqb_spec c LF) as [->|_];
      [simpl in H; tauto|].
    rewrite IH by (simpl in H; tauto). reflexivity.
Qed.

(** Splitting what [join] built from lines without line feeds gives the
    lines back. *)
Lemma split_lines_join lines :
  lines <> [] -> Forall (fun line => ~ In LF line) lines ->
  split_lines (join [LF] lines) = lines.
Proof.
  induction lines as [|x lines IH]; [congruence|]. intros _ Hall.
  inversion Hall as [|? ? Hx Hrest]; subst.
  destruct lines as [|y lines].
  - now apply split_lines_single.
  - cbn [join]. cbn [app]. rewrite split_lines_app_LF by assumption.
    f_equal. apply IH; [discriminate | assumption].
Qed.

Lemma join_app sep l1 l2 :
  l1 <> [] -> l2 <> [] ->
  join sep (l1 ++ l2) = join sep l1 ++ sep ++ join sep l2.
Proof.
  induction l1 as [|x l1 IH]; [congruence|]. intros _ Hl2.
  destruct l1 as [|y l1].
  - destruct l2; [congruence | reflexivity].
  - cbn [app join] in *. rewrite IH by (discriminate || assumption).
    now rewrite <- !app_assoc.
Qed.

Lemma split_lines_length s :
  length (split_lines s) = S (count_occ N.eq_dec s LF).
Proof.
  induction s as [|c s IH]; simpl; auto.
  destruct (N.eqb_spec c LF) as [->|Hc].
  - destruct (N.eq_dec LF LF); [|congruence]. simpl. now rewrite IH.
  - destruct (N.eq_dec c LF); [congruence|]. rewrite <- IH.
    pose proof (split_lines_nonempty s). destruct (split_lines s); simpl; congruence.
Qed.

Lemma label_no_LF (label : string) text :
  forallb (fun c => negb (c =? LF)%N) (js label) = true ->
  ~ In LF text -> ~ In LF (js label ++ text).
Proof.
  intros Hlabel Htext Hin. apply in_app_iff in Hin as [Hin | Hin]; auto.
  rewrite forallb_forall in Hlabel. specialize (Hlabel LF Hin).
  now rewrite N.eqb_refl in Hlabel.
Qed.

(** X15: when the pack identifier, the objective and the notes hold no line
    feed, the pack section read back line by line is the pack-name line, the
    objective line, an empty line, the heading, one bullet per line of the
    directive list (one more than the line feeds in it, so a single empty
    bullet for an empty list), an empty line and the notes line. *)
Theorem packToMarkdown_lines (pack : PackPrompt) :
  ~ In LF (packName pack) -> ~ In LF (goal pack) -> ~ In LF (systemNotes pack) ->
  split_lines (packToMarkdown pack)
  = [ js "Pack Name: " ++ packName pack; js "Objective: " ++ goal pack; [];
      js "Per Image Directives:" ]
    ++ List.map (fun line => js "- " ++ line) (split_lines (perImage pack))
    ++ [ []; js "System Notes: " ++ systemNotes pack ]
  /\ length (split_lines (packToMarkdown pack))
     = 7 + count_occ N.eq_dec (perImage pack) LF.
Proof.
  intros Hname Hgoal Hnotes.
  set (bullets := List.map (fun line => js "- " ++ line) (split_lines (perImage pack))).
  assert (Hbullets : bullets <> [])
    by (apply map_nonempty, split_lines_nonempty).
  assert (Hjoin : packToMarkdown pack
                  = join [LF]
                      ([ js "Pack Name: " ++ packName pack;
                         js "Objective: " ++ goal pack; [];
                         js "Per Image Directives:" ]
                       ++ bullets
                       ++ [ []; js "System Notes: " ++ systemNotes pack ])).
  { rewrite join_app by (discriminate || (destruct bullets; [congruence | discriminate])).
    rewrite join_app by (assumption || discriminate).
    unfold packToMarkdown. fold bullets. cbn [join]. now rewrite <- !app_assoc. }
  assert (Hsplit : split_lines (packToMarkdown pack)
                   = [ js "Pack Name: " ++ packName pack;
                       js "Objective: " ++ goal pack; [];
                       js "Per Image Directives:" ]
                     ++ bullets
                     ++ [ []; js "System Notes: " ++ systemNotes pack ]).
  { rewrite Hjoin. apply split_lines_join; [discriminate|].
    repeat first [apply Forall_cons | apply Forall_app; split].
    - now apply label_no_LF.
    - now apply label_no_LF.
    - simpl. tauto.
    - vm_compute. intuition discriminate.
    - unfold bullets. apply Forall_forall. intros line Hline.
      apply in_map_iff in Hline as (raw & <- & Hraw). apply label_no_LF; auto.
      exact (proj1 (Forall_forall _ _) (split_lines_no_LF (perImage pack)) raw Hraw).
    - simpl. tauto.
    - now apply label_no_LF.
    - constructor. }
  split; [exact Hsplit|].
  rewrite Hsplit. unfold bullets.
  rewrite !length_app, length_map, split_lines_length. simpl. lia.
Qed.

Lemma packToMarkdown_lines_witness :
  let pack := mkPack (js "p") (js "P") (js "PK") (js "G") [] (js "N") in
  ~ In LF (packName pack) /\ ~ In LF (goal pack) /\ ~ In LF (systemNotes pack)
  /\ split_lines (packToMarkdown pack)
     = [ js "Pack Name: PK"; js "Objective: G"; []; js "Per Image Directives:";
         js "- "; []; js "System Notes: N" ].
Proof.
  intros pack.
  assert (H1 : ~ In LF (packName pack)) by (vm_compute; intuition discriminate).
  assert (H2 : ~ In LF (goal pack)) by (vm_compute; intuition discriminate).
  assert (H3 : ~ In LF (systemNotes pack)) by (vm_compute; intuition discriminate).
  split; [exact H1|]. split; [exact H2|]. split; [exact H3|].
  exact (eq_trans (proj1 (packToMarkdown_lines pack H1 H2 H3)) eq_refl).
Defined.

(** ** Strings in the snapshot *)

Lemma unquote_raw c t :
  c <> 92%N -> unquote_body (c :: t) = option_map (cons c) (unquote_body t).
Proof.
  intros Hc. cbn [unquote_body]. destruct (N.eqb_spec c 92); [congruence | reflexivity].
Qed.

Lemma hex_value_digit d : (d < 16)%N -> hex_value (hex_digit d) = d.
Proof.
  intros Hd. unfold hex_value, hex_digit.
  destruct (d <? 10)%N eqn:H10.
  - apply N.ltb_lt in H10. destruct (48 + d <? 58)%N eqn:H; [lia|].
    apply N.ltb_ge in H. lia.
  - apply N.ltb_ge in H10. destruct (87 + d <? 58)%N eqn:H; [|lia].
    apply N.ltb_lt in H. lia.
Qed.

Lemma nibbles_value c :
  (c < 65536)%N ->
  (c / 4096 mod 16 * 4096 + c / 256 mod 16 * 256 + c / 16 mod 16 * 16 + c mod 16
   = c)%N.
Proof.
  intros Hc.
  pose proof (N.Div0.div_mod c 16) as E1.
  pose proof (N.Div0.div_mod (c / 16) 16) as E2.
  pose proof (N.Div0.div_mod (c / 256) 16) as E3.
  assert (D2 : (c / 16 / 16 = c / 256)%N) by (rewrite N.Div0.div_div; reflexivity).
  assert (D3 : (c / 256 / 16 = c / 4096)%N) by (rewrite N.Div0.div_div; reflexivity).
  assert (B : (c / 4096 < 16)%N) by (apply N.Div0.div_lt_upper_bound; lia).
  rewrite (N.mod_small (c / 4096) 16) by exact B.
  rewrite D2 in E2. rewrite D3 in E3. lia.
Qed.

Lemma unquote_unicode c t :
  (c < 65536)%N ->
  unquote_body (unicode_escape c ++ t) = option_map (cons c) (unquote_body t).
Proof.
  intros Hc. unfold unicode_escape. cbn [app unquote_body].
  change (92 =? 92)%N with true. change (117 =? 117)%N with true. cbv iota.
  rewrite !hex_value_digit by (apply N.mod_lt; discriminate).
  now rewrite nibbles_value.
Qed.

Lemma quote_unit_decode c t :
  is_high_surrogate c = false ->
  unquote_body (quote_unit c ++ t) = option_map (cons c) (unquote_body t).
Proof.
  intros Hhigh. unfold quote_unit.
  destruct (N.eqb_spec c 8) as [->|]; [reflexivity|].
  destruct (N.eqb_spec c 9) as [->|]; [reflexivity|].
  destruct (N.eqb_spec c 10) as [->|]; [reflexivity|].
  destruct (N.eqb_spec c 12) as [->|]; [reflexivity|].
  destruct (N.eqb_spec c 13) as [->|]; [reflexivity|].
  destruct (N.eqb_spec c 34) as [->|]; [reflexivity|].
  destruct (N.eqb_spec c 92) as [->|]; [reflexivity|].
  rewrite Hhigh. cbn [orb].
  destruct (c <? 32)%N eqn:Hlow; cbn [orb].
  - apply unquote_unicode. apply N.ltb_lt in Hlow. lia.
  - destruct (is_low_surrogate c) eqn:Hsur.
    + apply unquote_unicode. unfold is_low_surrogate in Hsur.
      apply andb_true_iff in Hsur as [_ Hsur]. apply N.leb_le in Hsur. lia.
    + now apply unquote_raw.
Qed.

(** What [quote_body] writes reads back as the string it was given. *)
Lemma unquote_quote_body s : unquote_body (quote_body s) = Some s.
Proof.
  induction s as [s IH] using (induction_ltof1 _ (@length char)). unfold ltof in IH.
  destruct s as [|c s]; [reflexivity|]. cbn [quote_body].
  destruct (is_high_surrogate c) eqn:Hhigh.
  - assert (Hc : (55296 <= c <= 56319)%N).
    { unfold is_high_surrogate in Hhigh. apply andb_true_iff in Hhigh as [H1 H2].
      apply N.leb_le in H1. apply N.leb_le in H2. lia. }
    destruct s as [|d s].
    + rewrite <- (app_nil_r (unicode_escape c)), unquote_unicode by lia. reflexivity.
    + destruct (is_low_surrogate d) eqn:Hlow.
      * assert (Hd : (56320 <= d)%N).
        { unfold is_low_surrogate in Hlow. apply andb_true_iff in Hlow as [H1 _].
          now apply N.leb_le in H1. }
        rewrite unquote_raw, unquote_raw, IH by (simpl; lia). reflexivity.
      * rewrite unquote_unicode, IH by (simpl; lia). reflexivity.
  - rewrite quote_unit_decode, IH by (simpl; auto). reflexivity.
Qed.

(** X16: the quoting of strings in the snapshot loses nothing: two strings
    with the same quoted form are the same string. *)
Theorem QuoteJSONString_injective (s1 s2 : jsstring) :
  QuoteJSONString s1 = QuoteJSONString s2 -> s1 = s2.
Proof.
  unfold QuoteJSONString. intros H.
  apply app_inv_head, app_inv_tail in H.
  apply (f_equal unquote_body) in H. rewrite !unquote_quote_body in H. congruence.
Qed.

Lemma QuoteJSONString_injective_witness :
  QuoteJSONString (js "a" ++ [LF; 34%N; 55357%N])
  = dq ++ js "a" ++ [92%N; 110%N; 92%N; 34%N; 92%N; 117%N] ++ js "d83d" ++ dq
  /\ js "a" ++ [LF; 34%N; 55357%N] = js "a" ++ [LF; 34%N; 55357%N].
Proof.
  assert (H : QuoteJSONString (js "a" ++ [LF; 34%N; 55357%N])
              = QuoteJSONString (js "a" ++ [LF; 34%N; 55357%N])) by reflexivity.
  split; [reflexivity|].
  exact (QuoteJSONString_injective _ _ H).
Defined.

Lemma hex_digit_printable d : (32 <=? hex_digit d)%N = true.
Proof. unfold hex_digit. apply N.leb_le. destruct (d <? 10)%N; lia. Qed.

Lemma quote_unit_printable c : forallb (fun x => (32 <=? x)%N) (quote_unit c) = true.
Proof.
  unfold quote_unit.
  repeat match goal with
         | |- context [if (c =? ?k)%N then _ else _] =>
             destruct (c =? k)%N; [reflexivity|]
         end.
  destruct (c <? 32)%N eqn:Hlow; cbn [orb].
  - simpl. now rewrite !hex_digit_printable.
  - destruct (is_high_surrogate c || is_low_surrogate c); simpl.
    + now rewrite !hex_digit_printable.
    + apply N.ltb_ge in Hlow. rewrite andb_true_r. now apply N.leb_le.
Qed.

Lemma quote_body_pair c d s :
  is_high_surrogate c = true -> is_low_surrogate d = true ->
  quote_body (c :: d :: s) = c :: d :: quote_body s.
Proof. intros Hc Hd. cbn [quote_body]. now rewrite Hc, Hd. Qed.

Lemma quote_body_lone c s :
  is_high_surrogate c = true ->
  match s with d :: _ => is_low_surrogate d = false | [] => True end ->
  quote_body (c :: s) = unicode_escape c ++ quote_body s.
Proof.
  intros Hc Hs. destruct s as [|d s].
  - cbn [quote_body]. rewrite Hc. now rewrite app_nil_r.
  - change (quote_body (c :: d :: s))
      with (if is_high_surrogate c
            then if is_low_surrogate d then c :: d :: quote_body s
                 else unicode_escape c ++ quote_body (d :: s)
            else quote_unit c ++ quote_body (d :: s)).
    now rewrite Hc, Hs.
Qed.

Lemma quote_body_unit c s :
  is_high_surrogate c = false ->
  quote_body (c :: s) = quote_unit c ++ quote_body s.
Proof.
  intros Hc.
  change (quote_body (c :: s))
    with (if is_high_surrogate c
          then match s with
               | d :: s'' => if is_low_surrogate d then c :: d :: quote_body s''
                             else unicode_escape c ++ quote_body s
               | [] => unicode_escape c
               end
          else quote_unit c ++ quote_body s).
  now rewrite Hc.
Qed.

(** X17: a quoted string holds no control character, in particular no line
    feed: every code unit below 32 is written as an escape, so the line
    breaks of the snapshot are those of its layout only. *)
Theorem QuoteJSONString_no_control_characters (s : jsstring) :
  forallb (fun c => (32 <=? c)%N) (QuoteJSONString s) = true
  /\ ~ In LF (QuoteJSONString s).
Proof.
  assert (Hbody : forallb (fun c => (32 <=? c)%N) (quote_body s) = true).
  { induction s as [s IH] using (induction_ltof1 _ (@length char)).
    unfold ltof in IH. destruct s as [|c s]; [reflexivity|].
    destruct (is_high_surrogate c) eqn:Hhigh.
    - assert (Hc : (32 <=? c)%N = true).
      { unfold is_high_surrogate in Hhigh. apply andb_true_iff in Hhigh as [H1 _].
        apply N.leb_le in H1. apply N.leb_le. lia. }
      assert (Hesc : forallb (fun x => (32 <=? x)%N) (unicode_escape c) = true)
        by (simpl; now rewrite !hex_digit_printable).
      destruct s as [|d s].
      + rewrite quote_body_lone, forallb_app by auto.
        apply andb_true_iff. split; [exact Hesc | reflexivity].
      + destruct (is_low_surrogate d) eqn:Hlow.
        * rewrite quote_body_pair by assumption.
          cbn [forallb]. rewrite Hc, IH by (simpl; lia).
          unfold is_low_surrogate in Hlow. apply andb_true_iff in Hlow as [H1 _].
          apply N.leb_le in H1. rewrite andb_true_r. apply N.leb_le. lia.
        * rewrite quote_body_lone, forallb_app by (simpl; auto).
          apply andb_true_iff. split; [exact Hesc | apply IH; simpl; lia].
    - rewrite quote_body_unit, forallb_app, quote_unit_printable, IH
        by (simpl; auto). reflexivity. }
  assert (Hall : forallb (fun c => (32 <=? c)%N) (QuoteJSONString s) = true).
  { unfold QuoteJSONString. rewrite !forallb_app.
    apply andb_true_iff. split; [reflexivity|].
    apply andb_true_iff. split; [exact Hbody | reflexivity]. }
  split; [exact Hall|].
  intros Hin. rewrite forallb_forall in Hall. specialize (Hall LF Hin). discriminate.
Qed.

(** ** Composing edits and selections *)

Lemma set_field_twice field v1 v2 pack :
  set_field field v2 (set_field field v1 pack) = set_field field v2 pack.
Proof. destruct field; reflexivity. Qed.

(** X18: typing twice into the same field of the active pack (any field but
    [id]) leaves the state the second value alone would have produced, the
    [pack_name] variable included. *)
Theorem handlePackFieldChange_last_value_wins
        (st : State) (field : PackKey) (v1 v2 : jsstring) :
  field <> key_id ->
  handlePackFieldChange field v2 (handlePackFieldChange field v1 st)
  = handlePackFieldChange field v2 st.
Proof.
  intros Hfield.
  assert (Hmap : forall l,
             List.map (fun pack => if str_eqb (id pack) (selectedPackId st)
                                   then set_field field v2 pack else pack)
               (List.map (fun pack => if str_eqb (id pack) (selectedPackId st)
                                      then set_field field v1 pack else pack) l)
             = List.map (fun pack => if str_eqb (id pack) (selectedPackId st)
                                     then set_field field v2 pack else pack) l).
  { intros l. rewrite map_map. apply map_ext. intros pack.
    destruct (str_eqb (id pack) (selectedPackId st)) eqn:Hp.
    - now rewrite set_field_id, Hp, set_field_twice.
    - now rewrite Hp. }
  unfold handlePackFieldChange.
  destruct (PackKey_eqb field key_packName); cbn -[obj_set js].
  - unfold handleVariableChange. cbn -[obj_set js].
    now rewrite Hmap, obj_set_twice.
  - now rewrite Hmap.
Qed.

Lemma handlePackFieldChange_last_value_wins_witness :
  key_packName <> key_id
  /\ handlePackFieldChange key_packName (js "AB")
       (handlePackFieldChange key_packName (js "A") initial_state)
     = handlePackFieldChange key_packName (js "AB") initial_state.
Proof.
  assert (H : key_packName <> key_id) by discriminate.
  exact (conj H (handlePackFieldChange_last_value_wins initial_state key_packName
                   (js "A") (js "AB") H)).
Defined.

(** X19: a click on a pack of the registry overrides whatever was selected
    before: the state after two selections is the state after the second
    alone. *)
Theorem handleSelectPack_overrides
        (st : State) (first second : jsstring) (pack : PackPrompt) :
  find (fun item => str_eqb (id item) second) (packs st) = Some pack ->
  handleSelectPack second (handleSelectPack first st) = handleSelectPack second st.
Proof.
  intros Hfind.
  assert (Hpacks : packs (handleSelectPack first st) = packs st)
    by (unfold handleSelectPack;
        destruct (find (fun item => str_eqb (id item) first) (packs st));
        reflexivity).
  unfold handleSelectPack at 1. rewrite Hpacks, Hfind. cbv zeta.
  unfold handleSelectPack. rewrite Hfind.
  destruct (find (fun item => str_eqb (id item) first) (packs st));
    unfold handleVariableChange; cbn -[obj_set js]; now rewrite ?obj_set_twice.
Qed.

Lemma handleSelectPack_overrides_witness :
  find (fun item => str_eqb (id item) (js "us_id")) (packs initial_state)
  = hd_error (skipn 1 DEFAULT_PACKS)
  /\ handleSelectPack (js "us_id") (handleSelectPack (js "nope") initial_state)
     = handleSelectPack (js "us_id") initial_state.
Proof.
  assert (H : find (fun item => str_eqb (id item) (js "us_id")) (packs initial_state)
              = hd_error (skipn 1 DEFAULT_PACKS)) by reflexivity.
  exact (conj H (handleSelectPack_overrides initial_state (js "nope") (js "us_id") _ H)).
Defined.

(** The store of a fresh session lacks [missing], which the template of
    the instance below mentions. *)
Lemma unresolved_own_name_keeps_marker_witness :
  In (js "missing") (detectPlaceholders (js "Use {{ missing }} now"))
  /\ resolved DEFAULT_VARIABLES (js "missing") = false
  /\ own_get (js "missing") Object_prototype = None
  /\ exists a b,
      injectVariables (js "Use {{ missing }} now") DEFAULT_VARIABLES
      = a ++ marker (js "missing") ++ b.
Proof.
  assert (H1 : In (js "missing") (detectPlaceholders (js "Use {{ missing }} now")))
    by (vm_compute; tauto).
  assert (H2 : resolved DEFAULT_VARIABLES (js "missing") = false) by reflexivity.
  assert (H3 : own_get (js "missing") Object_prototype = None) by reflexivity.
  exact (conj H1 (conj H2 (conj H3
    (unresolved_own_name_keeps_marker (js "Use {{ missing }} now")
       DEFAULT_VARIABLES (js "missing") H1 H2 H3)))).
Defined.
